(** * Verification of [stella_vslam::data::keyframe]

    A shallow embedding of [src/stella_vslam/data/keyframe.cc] and the
    properties of its pose cache, landmark slots, median depth,
    serialisation and erasure protocol.

    Conventions of the embedding.
    - Scalars ([double], [float]) are an interface [Scalar]: the methods are
      written once over its operations, theorems that need algebraic laws
      ask for them ([ScalarRing], [ScalarOrder]), and [Z] is the instance
      used to run the definitions.
    - [unsigned int], [int] and [size_t] values are [Z] or [nat]; every
      implicit conversion the C++ performs is written out ([as_unsigned],
      [as_int], [size_sub]).
    - [std::shared_ptr<landmark>] and [std::shared_ptr<keyframe>] are
      references by id; a null pointer is [None].
    - The collaborators of a keyframe (landmarks, its graph node, the map
      database, the BoW database) live in other translation units; they
      are the interface [Collaborators], and every theorem holds for all
      its implementations.
    - A method is a computation in the monad [M]: it threads the [world]
      (this keyframe, the collaborators' state, the trace of steps issued)
      and either returns or throws [std::out_of_range]. A [std::lock_guard]
      spans the whole body it guards, so a method is one atomic
      transition of the state its mutex protects. *)

From Stdlib Require Import ZArith Ring Lia Sorting.Sorted.
From stdpp Require Import base tactics option list sorting strings gmap.

Local Open Scope Z_scope.

(** ** Scalars *)

Class Scalar (F : Type) := {
  fzero : F;
  fone : F;
  fadd : F → F → F;
  fmul : F → F → F;
  fopp : F → F;
  (** [std::abs] *)
  fabs : F → F;
  (** [operator<] *)
  fltb : F → F → bool;
  (** the narrowing conversion [double] to [float] *)
  fnarrow : F → F
}.

Definition fsub `{Scalar F} (a b : F) : F := fadd a (fopp b).

(** [a <= b] as [std::sort] sees it: [!(b < a)]. *)
Definition fle `{Scalar F} (a b : F) : Prop := fltb b a = false.

#[global] Instance fle_dec `{Scalar F} (a b : F) : Decision (fle a b).
Proof. unfold fle. apply _. Defined.

(** Exact arithmetic: the scalars form a commutative ring. *)
Class ScalarRing (F : Type) `{Scalar F} : Prop :=
  scalar_ring : ring_theory fzero fone fadd fmul fsub fopp (@eq F).

(** [operator<] is a strict total order (no NaN among the values). *)
Class ScalarOrder (F : Type) `{Scalar F} : Prop := {
  fle_total : ∀ a b : F, fle a b ∨ fle b a;
  fle_trans : ∀ a b c : F, fle a b → fle b c → fle a c;
  fle_antisym : ∀ a b : F, fle a b → fle b a → a = b
}.

#[global] Instance Z_scalar : Scalar Z := {|
  fzero := 0;
  fone := 1;
  fadd := Z.add;
  fmul := Z.mul;
  fopp := Z.opp;
  fabs := Z.abs;
  fltb := Z.ltb;
  fnarrow := λ x, x
|}.

(** ** Fixed-size Eigen matrices *)

Record Vec3 (F : Type) := mkVec3 { v3x : F; v3y : F; v3z : F }.
Record Vec4 (F : Type) := mkVec4 { v4x : F; v4y : F; v4z : F; v4w : F }.
(** Matrices are stored by rows. *)
Record Mat33 (F : Type) := mkMat33 { m3r0 : Vec3 F; m3r1 : Vec3 F; m3r2 : Vec3 F }.
Record Mat44 (F : Type) :=
  mkMat44 { m4r0 : Vec4 F; m4r1 : Vec4 F; m4r2 : Vec4 F; m4r3 : Vec4 F }.

Arguments mkVec3 {F} _ _ _.
Arguments mkVec4 {F} _ _ _ _.
Arguments mkMat33 {F} _ _ _.
Arguments mkMat44 {F} _ _ _ _.
Arguments v3x {F} _.
Arguments v3y {F} _.
Arguments v3z {F} _.
Arguments v4x {F} _.
Arguments v4y {F} _.
Arguments v4z {F} _.
Arguments v4w {F} _.
Arguments m3r0 {F} _.
Arguments m3r1 {F} _.
Arguments m3r2 {F} _.
Arguments m4r0 {F} _.
Arguments m4r1 {F} _.
Arguments m4r2 {F} _.
Arguments m4r3 {F} _.

Section Eigen.
Context {F : Type} `{Scalar F}.

Definition head3 (v : Vec4 F) : Vec3 F := mkVec3 (v4x v) (v4y v) (v4z v).

(** [m.block<3, 3>(0, 0)] *)
Definition block33 (m : Mat44 F) : Mat33 F :=
  mkMat33 (head3 (m4r0 m)) (head3 (m4r1 m)) (head3 (m4r2 m)).

(** [m.block<3, 1>(0, 3)] *)
Definition block31 (m : Mat44 F) : Vec3 F :=
  mkVec3 (v4w (m4r0 m)) (v4w (m4r1 m)) (v4w (m4r2 m)).

(** [m.block<1, 3>(2, 0)] *)
Definition block13_row2 (m : Mat44 F) : Vec3 F := head3 (m4r2 m).

(** [m(2, 3)] *)
Definition coeff23 (m : Mat44 F) : F := v4w (m4r2 m).

(** [Mat44_t::Identity()] *)
Definition Identity44 : Mat44 F :=
  mkMat44 (mkVec4 fone fzero fzero fzero) (mkVec4 fzero fone fzero fzero)
          (mkVec4 fzero fzero fone fzero) (mkVec4 fzero fzero fzero fone).

Definition Identity33 : Mat33 F :=
  mkMat33 (mkVec3 fone fzero fzero) (mkVec3 fzero fone fzero)
          (mkVec3 fzero fzero fone).

Definition set_head3 (v : Vec4 F) (h : Vec3 F) : Vec4 F :=
  mkVec4 (v3x h) (v3y h) (v3z h) (v4w v).

Definition set_w (v : Vec4 F) (w : F) : Vec4 F :=
  mkVec4 (v4x v) (v4y v) (v4z v) w.

(** [m.block<3, 3>(0, 0) = b] *)
Definition set_block33 (m : Mat44 F) (b : Mat33 F) : Mat44 F :=
  mkMat44 (set_head3 (m4r0 m) (m3r0 b)) (set_head3 (m4r1 m) (m3r1 b))
          (set_head3 (m4r2 m) (m3r2 b)) (m4r3 m).

(** [m.block<3, 1>(0, 3) = t] *)
Definition set_block31 (m : Mat44 F) (t : Vec3 F) : Mat44 F :=
  mkMat44 (set_w (m4r0 m) (v3x t)) (set_w (m4r1 m) (v3y t))
          (set_w (m4r2 m) (v3z t)) (m4r3 m).

(** [m.transpose()] *)
Definition transpose (m : Mat33 F) : Mat33 F :=
  mkMat33 (mkVec3 (v3x (m3r0 m)) (v3x (m3r1 m)) (v3x (m3r2 m)))
          (mkVec3 (v3y (m3r0 m)) (v3y (m3r1 m)) (v3y (m3r2 m)))
          (mkVec3 (v3z (m3r0 m)) (v3z (m3r1 m)) (v3z (m3r2 m))).

Definition vec3_opp (v : Vec3 F) : Vec3 F :=
  mkVec3 (fopp (v3x v)) (fopp (v3y v)) (fopp (v3z v)).

(** unary [-m] *)
Definition mat33_opp (m : Mat33 F) : Mat33 F :=
  mkMat33 (vec3_opp (m3r0 m)) (vec3_opp (m3r1 m)) (vec3_opp (m3r2 m)).

(** [a.dot(b)] *)
Definition dot (a b : Vec3 F) : F :=
  fadd (fadd (fmul (v3x a) (v3x b)) (fmul (v3y a) (v3y b)))
       (fmul (v3z a) (v3z b)).

(** [m * v] *)
Definition mat33_mul_vec (m : Mat33 F) (v : Vec3 F) : Vec3 F :=
  mkVec3 (dot (m3r0 m) v) (dot (m3r1 m) v) (dot (m3r2 m) v).

Definition col3 (m : Mat33 F) (j : nat) : Vec3 F :=
  match j with
  | 0%nat => m3r0 (transpose m)
  | 1%nat => m3r1 (transpose m)
  | _ => m3r2 (transpose m)
  end.

(** [a * b] for 3x3 matrices *)
Definition mat33_mul (a b : Mat33 F) : Mat33 F :=
  let row r := mkVec3 (dot r (col3 b 0)) (dot r (col3 b 1)) (dot r (col3 b 2)) in
  mkMat33 (row (m3r0 a)) (row (m3r1 a)) (row (m3r2 a)).

Definition dot4 (a b : Vec4 F) : F :=
  fadd (fadd (fadd (fmul (v4x a) (v4x b)) (fmul (v4y a) (v4y b)))
             (fmul (v4z a) (v4z b)))
       (fmul (v4w a) (v4w b)).

Definition col4 (m : Mat44 F) (p : Vec4 F → F) : Vec4 F :=
  mkVec4 (p (m4r0 m)) (p (m4r1 m)) (p (m4r2 m)) (p (m4r3 m)).

(** [a * b] for 4x4 matrices *)
Definition mat44_mul (a b : Mat44 F) : Mat44 F :=
  let row r :=
    mkVec4 (dot4 r (col4 b v4x)) (dot4 r (col4 b v4y))
           (dot4 r (col4 b v4z)) (dot4 r (col4 b v4w)) in
  mkMat44 (row (m4r0 a)) (row (m4r1 a)) (row (m4r2 a)) (row (m4r3 a)).

(** The rotation block is orthonormal: its columns and its rows are. *)
Definition orthonormal (r : Mat33 F) : Prop :=
  mat33_mul (transpose r) r = Identity33 ∧ mat33_mul r (transpose r) = Identity33.

(** The last row of a rigid transform. *)
Definition affine (m : Mat44 F) : Prop :=
  m4r3 m = mkVec4 fzero fzero fzero fone.

End Eigen.

(** ** Machine integers *)

(** Conversion to [unsigned int] (32 bits). *)
Definition as_unsigned (z : Z) : Z := z mod 2 ^ 32.

(** Conversion to [int] (32 bits, two's complement). *)
Definition as_int (z : Z) : Z := (z + 2 ^ 31) mod 2 ^ 32 - 2 ^ 31.

(** [a - b] on [size_t] (64 bits). *)
Definition size_sub (a b : Z) : Z := (a - b) mod 2 ^ 64.

(** ** References, exceptions, outcomes *)

(** A [std::shared_ptr<landmark>] that is not null: the landmark's [id_]. *)
Definition landmark_ref : Type := Z.
(** A [std::shared_ptr<keyframe>] that is not null: the keyframe's [id_]. *)
Definition keyframe_ref : Type := Z.

Inductive exception : Type :=
| out_of_range.

Inductive outcome (A : Type) : Type :=
| Returned (a : A)
| Thrown (e : exception).

Arguments Returned {A} a.
Arguments Thrown {A} e.

(** ** Camera, feature parameters, observations *)

Inductive setup_type_t : Type :=
| Monocular
| Stereo
| RGBD.

Record camera_base := mkCamera { cam_name_ : string; setup_type_ : setup_type_t }.
Record orb_params := mkOrbParams { orb_name_ : string }.

(** [frame_observation]: the keypoint count and the feature arrays
    (undistorted keypoints, right-image coordinates, depths, descriptors).
    No method of the keyframe looks into an array, so all four have the
    opaque type [Obs]. *)
Record frame_observation (Obs : Type) := mkFrameObservation {
  num_keypts_ : nat;
  undist_keypts_ : Obs;
  stereo_x_right_ : Obs;
  depths_ : Obs;
  descriptors_ : Obs
}.

Arguments mkFrameObservation {Obs} _ _ _ _ _.
Arguments num_keypts_ {Obs} _.
Arguments undist_keypts_ {Obs} _.
Arguments stereo_x_right_ {Obs} _.
Arguments depths_ {Obs} _.
Arguments descriptors_ {Obs} _.

(** What the keyframe constructor reads of a [frame]. *)
Record frame (F Obs : Type) := mkFrame {
  frm_timestamp_ : F;
  frm_camera_ : camera_base;
  frm_orb_params_ : orb_params;
  frm_frm_obs_ : frame_observation Obs;
  (** [frm.get_landmarks()] *)
  frm_landmarks_ : list (option landmark_ref);
  (** [frm.get_pose_cw()] *)
  frm_pose_cw_ : Mat44 F
}.

Arguments mkFrame {F Obs} _ _ _ _ _ _.
Arguments frm_timestamp_ {F Obs} _.
Arguments frm_camera_ {F Obs} _.
Arguments frm_orb_params_ {F Obs} _.
Arguments frm_frm_obs_ {F Obs} _.
Arguments frm_landmarks_ {F Obs} _.
Arguments frm_pose_cw_ {F Obs} _.

(** ** The keyframe

    The fields the modelled methods read or write. The marker table and
    the bag-of-words vectors are carried along unchanged by all of them
    and are left out. *)
Record keyframe (F Obs : Type) := mkKeyframe {
  id_ : Z;
  timestamp_ : F;
  camera_ : camera_base;
  orb_params_ : orb_params;
  frm_obs_ : frame_observation Obs;
  landmarks_ : list (option landmark_ref);
  pose_cw_ : Mat44 F;
  pose_wc_ : Mat44 F;
  trans_wc_ : Vec3 F;
  cannot_be_erased_ : bool;
  will_be_erased_ : bool
}.

Arguments mkKeyframe {F Obs} _ _ _ _ _ _ _ _ _ _ _.
Arguments id_ {F Obs} _.
Arguments timestamp_ {F Obs} _.
Arguments camera_ {F Obs} _.
Arguments orb_params_ {F Obs} _.
Arguments frm_obs_ {F Obs} _.
Arguments landmarks_ {F Obs} _.
Arguments pose_cw_ {F Obs} _.
Arguments pose_wc_ {F Obs} _.
Arguments trans_wc_ {F Obs} _.
Arguments cannot_be_erased_ {F Obs} _.
Arguments will_be_erased_ {F Obs} _.

(** The record [to_json] returns, one field per key and in the order of
    the source. [J] is the type of what the converters
    [convert_rotation_to_json], [convert_translation_to_json],
    [convert_keypoints_to_json] and [convert_descriptors_to_json] return;
    [x_rights] and [depths] are stored as they are. *)
Record keyframe_json (F Obs J : Type) := mkJson {
  j_ts : F;
  j_cam : string;
  j_orb_params : string;
  j_rot_cw : J;
  j_trans_cw : J;
  j_n_keypts : nat;
  j_undist_keypts : J;
  j_x_rights : Obs;
  j_depths : Obs;
  j_descs : J;
  j_lm_ids : list Z;
  j_span_parent : Z;
  j_span_children : list Z;
  j_loop_edges : list Z
}.

Arguments mkJson {F Obs J} _ _ _ _ _ _ _ _ _ _ _ _ _ _.
Arguments j_ts {F Obs J} _.
Arguments j_cam {F Obs J} _.
Arguments j_orb_params {F Obs J} _.
Arguments j_rot_cw {F Obs J} _.
Arguments j_trans_cw {F Obs J} _.
Arguments j_n_keypts {F Obs J} _.
Arguments j_undist_keypts {F Obs J} _.
Arguments j_x_rights {F Obs J} _.
Arguments j_depths {F Obs J} _.
Arguments j_descs {F Obs J} _.
Arguments j_lm_ids {F Obs J} _.
Arguments j_span_parent {F Obs J} _.
Arguments j_span_children {F Obs J} _.
Arguments j_loop_edges {F Obs J} _.

(** The converters [to_json] calls. They are defined outside keyframe.cc
    and are taken as they come: [J] is the JSON value they build. *)
Class JsonConverters (F Obs J : Type) := {
  convert_rotation_to_json : Mat33 F → J;
  convert_translation_to_json : Vec3 F → J;
  convert_keypoints_to_json : Obs → J;
  convert_descriptors_to_json : Obs → J
}.

(** ** Collaborators

    The calls the keyframe makes on landmarks, on its graph node, on the
    map database and on the BoW database. [E] is the state of all of
    them; observers read it, the other calls change it. A keyframe
    argument is the [shared_from_this()] the C++ passes. *)
Class Collaborators (F E : Type) := {
  (** [landmark] *)
  lm_will_be_erased : E → landmark_ref → bool;
  lm_get_pos_in_world : E → landmark_ref → Vec3 F;
  lm_get_index_in_keyframe : E → landmark_ref → keyframe_ref → Z;
  lm_num_observations : E → landmark_ref → nat;
  lm_add_observation : landmark_ref → keyframe_ref → nat → E → E;
  lm_erase_observation : landmark_ref → keyframe_ref → E → E;
  lm_compute_descriptor : landmark_ref → E → E;
  lm_update_mean_normal_and_obs_scale_variance : landmark_ref → E → E;
  (** [graph_node] of the keyframe given *)
  gn_has_loop_edge : E → keyframe_ref → bool;
  gn_get_spanning_parent : E → keyframe_ref → option keyframe_ref;
  gn_get_spanning_children : E → keyframe_ref → list keyframe_ref;
  gn_get_loop_edges : E → keyframe_ref → list keyframe_ref;
  gn_erase_all_connections : keyframe_ref → E → E;
  gn_recover_spanning_connections : keyframe_ref → E → E;
  (** [map_database] *)
  map_origin_keyfrm_ : E → keyframe_ref;
  map_replace_reference_keyframe : keyframe_ref → option keyframe_ref → E → E;
  map_erase_keyframe : keyframe_ref → E → E;
  (** [bow_database] *)
  bow_erase_keyframe : keyframe_ref → E → E
}.

(** The steps a method issues, in program order: the write of the erasure
    flag and the calls that change a collaborator. *)
Inductive step : Type :=
| raise_will_be_erased
| landmark_add_observation (lm : landmark_ref) (idx : nat)
| landmark_erase_observation (lm : landmark_ref)
| landmark_compute_descriptor (lm : landmark_ref)
| landmark_update_mean_normal_and_obs_scale_variance (lm : landmark_ref)
| graph_erase_all_connections
| graph_recover_spanning_connections
| map_db_replace_reference_keyframe (parent : option keyframe_ref)
| map_db_erase_keyframe
| bow_db_erase_keyframe.

(** This keyframe, the collaborators, and the steps issued so far. *)
Record world (F Obs E : Type) := mkWorld {
  self : keyframe F Obs;
  ext : E;
  trace : list step
}.

Arguments mkWorld {F Obs E} _ _ _.
Arguments self {F Obs E} _.
Arguments ext {F Obs E} _.
Arguments trace {F Obs E} _.

(** ** Field updates *)

Section Setters.
Context {F Obs : Type}.

Definition with_landmarks (v : list (option landmark_ref)) (k : keyframe F Obs) :=
  mkKeyframe (id_ k) (timestamp_ k) (camera_ k) (orb_params_ k) (frm_obs_ k)
    v (pose_cw_ k) (pose_wc_ k) (trans_wc_ k)
    (cannot_be_erased_ k) (will_be_erased_ k).

Definition with_pose_cw (m : Mat44 F) (k : keyframe F Obs) :=
  mkKeyframe (id_ k) (timestamp_ k) (camera_ k) (orb_params_ k) (frm_obs_ k)
    (landmarks_ k) m (pose_wc_ k) (trans_wc_ k)
    (cannot_be_erased_ k) (will_be_erased_ k).

Definition with_pose_wc (m : Mat44 F) (k : keyframe F Obs) :=
  mkKeyframe (id_ k) (timestamp_ k) (camera_ k) (orb_params_ k) (frm_obs_ k)
    (landmarks_ k) (pose_cw_ k) m (trans_wc_ k)
    (cannot_be_erased_ k) (will_be_erased_ k).

Definition with_trans_wc (t : Vec3 F) (k : keyframe F Obs) :=
  mkKeyframe (id_ k) (timestamp_ k) (camera_ k) (orb_params_ k) (frm_obs_ k)
    (landmarks_ k) (pose_cw_ k) (pose_wc_ k) t
    (cannot_be_erased_ k) (will_be_erased_ k).

Definition with_cannot_be_erased (b : bool) (k : keyframe F Obs) :=
  mkKeyframe (id_ k) (timestamp_ k) (camera_ k) (orb_params_ k) (frm_obs_ k)
    (landmarks_ k) (pose_cw_ k) (pose_wc_ k) (trans_wc_ k)
    b (will_be_erased_ k).

Definition with_will_be_erased (b : bool) (k : keyframe F Obs) :=
  mkKeyframe (id_ k) (timestamp_ k) (camera_ k) (orb_params_ k) (frm_obs_ k)
    (landmarks_ k) (pose_cw_ k) (pose_wc_ k) (trans_wc_ k)
    (cannot_be_erased_ k) b.

End Setters.

(** ** [std::vector] and [std::sort] *)

(** [v.at(idx)], read *)
Definition at_ {A : Type} (v : list A) (idx : nat) : outcome A :=
  match v !! idx with
  | Some x => Returned x
  | None => Thrown out_of_range
  end.

(** [v.at(idx) = x] *)
Definition at_put {A : Type} (v : list A) (idx : nat) (x : A) : outcome (list A) :=
  if decide (idx < length v)%nat then Returned (<[idx := x]> v)
  else Thrown out_of_range.

(** [std::sort(v.begin(), v.end())] with [operator<]. The standard fixes
    the result (a sorted rearrangement), not the algorithm. *)
Definition std_sort `{Scalar F} (v : list F) : list F := merge_sort fle v.

(** ** The method monad *)

Section Monad.
Context {F Obs E : Type}.

Definition M (A : Type) : Type := world F Obs E → outcome A * world F Obs E.

#[global] Instance M_ret : MRet M := λ A a w, (Returned a, w).

#[global] Instance M_bind : MBind M := λ A B f m w,
  match m w with
  | (Returned a, w') => f a w'
  | (Thrown e, w') => (Thrown e, w')
  end.

Definition throw {A : Type} (e : exception) : M A := λ w, (Thrown e, w).

(** An operation of a value type used inside a method. *)
Definition lift {A : Type} (o : outcome A) : M A := λ w, (o, w).

Definition get_self : M (keyframe F Obs) := λ w, (Returned (self w), w).

Definition set_self (k : keyframe F Obs) : M unit :=
  λ w, (Returned tt, mkWorld k (ext w) (trace w)).

(** A [const] call on a collaborator. *)
Definition observe {A : Type} (q : E → A) : M A := λ w, (Returned (q (ext w)), w).

(** A call that changes a collaborator; it is added to the trace. *)
Definition issue (s : step) (f : E → E) : M unit :=
  λ w, (Returned tt, mkWorld (self w) (f (ext w)) (trace w ++ [s])).

(** [shared_from_this()] *)
Definition shared_from_this : M keyframe_ref := λ w, (Returned (id_ (self w)), w).

(** A loop over [l] that carries the local variable [acc]. *)
Fixpoint fold_each {A B : Type} (l : list A) (acc : B) (body : B → A → M B) : M B :=
  match l with
  | [] => mret acc
  | x :: l' => acc' ← body acc x; fold_each l' acc' body
  end.

(** A range-[for] over [l]. *)
Fixpoint for_each {A : Type} (l : list A) (body : A → M unit) : M unit :=
  match l with
  | [] => mret tt
  | x :: l' => body x;; for_each l' body
  end.

End Monad.

Arguments M : clear implicits.

(** Modelled from the spec: [keyframe::operator==] is declared in
    keyframe.h, which is not among the sources; a keyframe has an immutable
    numeric identity (section 3) and two keyframes are the same when their
    ids are. *)
Definition keyframe_eqb (a b : keyframe_ref) : bool := Z.eqb a b.

(** ** The methods of [keyframe] *)

Section Methods.
Context {F Obs E : Type} `{Scalar F} `{Collaborators F E}.

(** [keyframe::set_pose_cw(const Mat44_t&)]: the whole body runs under
    [mtx_pose_]. *)
Definition set_pose_cw (pose_cw : Mat44 F) (k : keyframe F Obs) : keyframe F Obs :=
  let k := with_pose_cw pose_cw k in
  let rot_cw := block33 (pose_cw_ k) in
  let trans_cw := block31 (pose_cw_ k) in
  let rot_wc := transpose rot_cw in
  let k := with_trans_wc (mat33_mul_vec (mat33_opp rot_wc) trans_cw) k in
  let k := with_pose_wc Identity44 k in
  let k := with_pose_wc (set_block33 (pose_wc_ k) rot_wc) k in
  with_pose_wc (set_block31 (pose_wc_ k) (trans_wc_ k)) k.

Definition get_pose_cw (k : keyframe F Obs) : Mat44 F := pose_cw_ k.
Definition get_pose_wc (k : keyframe F Obs) : Mat44 F := pose_wc_ k.
Definition get_trans_wc (k : keyframe F Obs) : Vec3 F := trans_wc_ k.
Definition get_rot_cw (k : keyframe F Obs) : Mat33 F := block33 (pose_cw_ k).
Definition get_trans_cw (k : keyframe F Obs) : Vec3 F := block31 (pose_cw_ k).

(** [keyframe::keyframe(unsigned int id, const frame& frm)]. The pose
    members are not initialised before the body calls [set_pose_cw], which
    assigns all three; the two flags start [false]. *)
Definition keyframe_of_frame (id : Z) (frm : frame F Obs) : keyframe F Obs :=
  set_pose_cw (frm_pose_cw_ frm)
    (mkKeyframe id (frm_timestamp_ frm) (frm_camera_ frm) (frm_orb_params_ frm)
       (frm_frm_obs_ frm) (frm_landmarks_ frm)
       Identity44 Identity44 (mkVec3 fzero fzero fzero) false false).

(** [keyframe::keyframe(id, timestamp, pose_cw, camera, orb_params,
    frm_obs, bow_vec, bow_feat_vec)] *)
Definition keyframe_of_fields (id : Z) (timestamp : F) (pose_cw : Mat44 F)
    (camera : camera_base) (orb : orb_params) (frm_obs : frame_observation Obs)
    : keyframe F Obs :=
  set_pose_cw pose_cw
    (mkKeyframe id timestamp camera orb frm_obs
       (replicate (num_keypts_ frm_obs) None)
       Identity44 Identity44 (mkVec3 fzero fzero fzero) false false).

(** [keyframe::add_landmark] *)
Definition add_landmark (lm : option landmark_ref) (idx : nat) (k : keyframe F Obs)
    : outcome (keyframe F Obs) :=
  match at_put (landmarks_ k) idx lm with
  | Returned v => Returned (with_landmarks v k)
  | Thrown e => Thrown e
  end.

(** [keyframe::erase_landmark_with_index] *)
Definition erase_landmark_with_index (idx : nat) (k : keyframe F Obs)
    : outcome (keyframe F Obs) :=
  match at_put (landmarks_ k) idx None with
  | Returned v => Returned (with_landmarks v k)
  | Thrown e => Thrown e
  end.

(** [keyframe::get_landmark] *)
Definition get_landmark (idx : nat) (k : keyframe F Obs) : outcome (option landmark_ref) :=
  at_ (landmarks_ k) idx.

(** [keyframe::get_landmarks] *)
Definition get_landmarks (k : keyframe F Obs) : list (option landmark_ref) :=
  landmarks_ k.

(** [keyframe::erase_landmark] *)
Definition erase_landmark (lm : landmark_ref) : M F Obs E unit :=
  this ← shared_from_this;
  idx ← observe (λ e, lm_get_index_in_keyframe e lm this);
  if decide (0 ≤ idx) then
    k ← get_self;
    v ← lift (at_put (landmarks_ k) (Z.to_nat (as_unsigned idx)) None);
    set_self (with_landmarks v k)
  else mret tt.

(** [keyframe::update_landmarks] *)
Definition update_landmarks : M F Obs E unit :=
  this ← shared_from_this;
  k ← get_self;
  for_each (seq 0 (length (landmarks_ k))) (λ idx,
    k ← get_self;
    lm ← lift (at_ (landmarks_ k) idx);
    match lm with
    | None => mret tt
    | Some l =>
        erased ← observe (λ e, lm_will_be_erased e l);
        if erased : bool then mret tt
        else
          issue (landmark_add_observation l idx) (lm_add_observation l this idx);;
          issue (landmark_update_mean_normal_and_obs_scale_variance l)
                (lm_update_mean_normal_and_obs_scale_variance l);;
          issue (landmark_compute_descriptor l) (lm_compute_descriptor l)
    end).

(** [keyframe::get_valid_landmarks]; the [std::set] is listed in slot
    order, each landmark once. *)
Definition get_valid_landmarks : M F Obs E (list landmark_ref) :=
  k ← get_self;
  fold_each (landmarks_ k) [] (λ valid_landmarks lm,
    match lm with
    | None => mret valid_landmarks
    | Some l =>
        erased ← observe (λ e, lm_will_be_erased e l);
        if erased : bool then mret valid_landmarks
        else if decide (l ∈ valid_landmarks) then mret valid_landmarks
        else mret (valid_landmarks ++ [l])
    end).

(** [keyframe::get_num_tracked_landmarks] *)
Definition get_num_tracked_landmarks (min_num_obs_thr : nat) : M F Obs E nat :=
  k ← get_self;
  let num_tracked_lms := 0%nat in
  if decide (0 < min_num_obs_thr)%nat then
    fold_each (landmarks_ k) num_tracked_lms (λ num_tracked_lms lm,
      match lm with
      | None => mret num_tracked_lms
      | Some l =>
          erased ← observe (λ e, lm_will_be_erased e l);
          if erased : bool then mret num_tracked_lms
          else
            num_observations ← observe (λ e, lm_num_observations e l);
            if decide (min_num_obs_thr ≤ num_observations)%nat
            then mret (S num_tracked_lms)
            else mret num_tracked_lms
      end)
  else
    fold_each (landmarks_ k) num_tracked_lms (λ num_tracked_lms lm,
      match lm with
      | None => mret num_tracked_lms
      | Some l =>
          erased ← observe (λ e, lm_will_be_erased e l);
          if erased : bool then mret num_tracked_lms
          else mret (S num_tracked_lms)
      end).

(** The body of the loop over the landmarks in [compute_median_depth]. *)
Definition push_depth (abs : bool) (rot_cw_z_row : Vec3 F) (trans_cw_z : F)
    (depths : list F) (lm : option landmark_ref) : M F Obs E (list F) :=
  match lm with
  | None => mret depths
  | Some l =>
      pos_w ← observe (λ e, lm_get_pos_in_world e l);
      let pos_c_z := fadd (dot rot_cw_z_row pos_w) trans_cw_z in
      mret (depths ++ [fnarrow (if abs then fabs pos_c_z else pos_c_z)])
  end.

(** [keyframe::compute_median_depth] *)
Definition compute_median_depth (abs : bool) : M F Obs E F :=
  k ← get_self;
  let landmarks := landmarks_ k in
  let pose_cw := pose_cw_ k in
  let rot_cw_z_row := block13_row2 pose_cw in
  let trans_cw_z := fnarrow (coeff23 pose_cw) in
  depths ← fold_each landmarks [] (push_depth abs rot_cw_z_row trans_cw_z);
  let depths := std_sort depths in
  lift (at_ depths (Z.to_nat (size_sub (Z.of_nat (length depths)) 1 / 2))).

(** [keyframe::depth_is_available] *)
Definition depth_is_available (k : keyframe F Obs) : bool :=
  match setup_type_ (camera_ k) with
  | Monocular => false
  | _ => true
  end.

(** [keyframe::set_not_to_be_erased] *)
Definition set_not_to_be_erased (k : keyframe F Obs) : keyframe F Obs :=
  with_cannot_be_erased true k.

(** [keyframe::set_to_be_erased] *)
Definition set_to_be_erased : M F Obs E unit :=
  this ← shared_from_this;
  has_loop_edge ← observe (λ e, gn_has_loop_edge e this);
  if negb has_loop_edge then
    k ← get_self;
    set_self (with_cannot_be_erased false k)
  else mret tt.

(** [will_be_erased_ = true] *)
Definition raise_flag : M F Obs E unit :=
  λ w, (Returned tt,
        mkWorld (with_will_be_erased true (self w)) (ext w)
                (trace w ++ [raise_will_be_erased])).

(** The body of the loop over the landmarks in [prepare_for_erasing]. *)
Definition detach_slot (this : keyframe_ref) (lm : option landmark_ref)
    : M F Obs E unit :=
  match lm with
  | None => mret tt
  | Some l =>
      erased ← observe (λ e, lm_will_be_erased e l);
      if erased : bool then mret tt
      else
        issue (landmark_erase_observation l) (lm_erase_observation l this);;
        erased ← observe (λ e, lm_will_be_erased e l);
        if negb erased then
          issue (landmark_compute_descriptor l) (lm_compute_descriptor l);;
          issue (landmark_update_mean_normal_and_obs_scale_variance l)
                (lm_update_mean_normal_and_obs_scale_variance l)
        else mret tt
  end.

(** [keyframe::prepare_for_erasing] *)
Definition prepare_for_erasing : M F Obs E unit :=
  this ← shared_from_this;
  origin_keyfrm ← observe map_origin_keyfrm_;
  if keyframe_eqb this origin_keyfrm then mret tt
  else
    k ← get_self;
    if cannot_be_erased_ k then mret tt
    else
      raise_flag;;
      k ← get_self;
      for_each (landmarks_ k) (detach_slot this);;
      issue graph_erase_all_connections (gn_erase_all_connections this);;
      issue graph_recover_spanning_connections (gn_recover_spanning_connections this);;
      spanning_parent ← observe (λ e, gn_get_spanning_parent e this);
      issue (map_db_replace_reference_keyframe spanning_parent)
            (map_replace_reference_keyframe this spanning_parent);;
      issue map_db_erase_keyframe (map_erase_keyframe this);;
      issue bow_db_erase_keyframe (bow_erase_keyframe this).

(** [keyframe::will_be_erased] *)
Definition will_be_erased (k : keyframe F Obs) : bool := will_be_erased_ k.

(** The body of the loop over the slots in [to_json]. *)
Definition fill_landmark_id (k : keyframe F Obs) (landmark_ids : list Z) (i : nat)
    : M F Obs E (list Z) :=
  lm ← lift (at_ (landmarks_ k) i);
  match lm with
  | None => mret landmark_ids
  | Some l =>
      erased ← observe (λ e, lm_will_be_erased e l);
      if negb erased then lift (at_put landmark_ids i (as_int l))
      else mret landmark_ids
  end.

Context {J : Type} `{JsonConverters F Obs J}.

(** [keyframe::to_json]. [id_] is an [unsigned int] (the constructors
    initialise it from one): stored into a [std::vector<int>] it is
    converted to [int]; in [spanning_parent ? spanning_parent->id_ : -1]
    the operands are an [unsigned int] and an [int], so by the usual
    arithmetic conversions the conditional expression has type
    [unsigned int] and [-1] is converted to it. *)
Definition to_json : M F Obs E (keyframe_json F Obs J) :=
  this ← shared_from_this;
  k ← get_self;
  let landmark_ids := replicate (length (landmarks_ k)) (-1) in
  landmark_ids ← fold_each (seq 0 (length landmark_ids)) landmark_ids
                   (fill_landmark_id k);
  spanning_parent ← observe (λ e, gn_get_spanning_parent e this);
  spanning_children ← observe (λ e, gn_get_spanning_children e this);
  let spanning_child_ids :=
    foldl (λ ids child, ids ++ [as_int child]) [] spanning_children in
  loop_edges ← observe (λ e, gn_get_loop_edges e this);
  let loop_edge_ids :=
    foldl (λ ids loop_edge, ids ++ [as_int loop_edge]) [] loop_edges in
  mret (mkJson (timestamp_ k) (cam_name_ (camera_ k)) (orb_name_ (orb_params_ k))
          (convert_rotation_to_json (block33 (pose_cw_ k)))
          (convert_translation_to_json (block31 (pose_cw_ k)))
          (num_keypts_ (frm_obs_ k))
          (convert_keypoints_to_json (undist_keypts_ (frm_obs_ k)))
          (stereo_x_right_ (frm_obs_ k))
          (depths_ (frm_obs_ k))
          (convert_descriptors_to_json (descriptors_ (frm_obs_ k)))
          landmark_ids
          (as_unsigned (match spanning_parent with Some p => p | None => -1 end))
          spanning_child_ids loop_edge_ids).

End Methods.

(** ** Specification vocabulary

    The properties below are stated with these definitions, which follow
    the wording of the specification and are compared with the methods. *)

Section Specification.
Context {F Obs E : Type} `{Scalar F} `{Collaborators F E}.

(** The slot sequence has one entry per feature observation. *)
Definition slots_match (k : keyframe F Obs) : Prop :=
  length (landmarks_ k) = num_keypts_ (frm_obs_ k).

(** A frame whose landmark vector has one entry per keypoint. *)
Definition frame_slots_match (frm : frame F Obs) : Prop :=
  length (frm_landmarks_ frm) = num_keypts_ (frm_frm_obs_ frm).

(** The depth of landmark [l] along the optical axis of [k]:
    [rotation_row_z · position + translation_z], optionally absolute. *)
Definition depth_along_z (abs : bool) (k : keyframe F Obs) (e : E) (l : landmark_ref) : F :=
  let z := fadd (dot (block13_row2 (pose_cw_ k)) (lm_get_pos_in_world e l))
                (fnarrow (coeff23 (pose_cw_ k))) in
  fnarrow (if abs then fabs z else z).

(** The depths of the landmarks in the non-empty slots, in slot order. *)
Definition slot_depths (abs : bool) (w : world F Obs E) : list F :=
  omap (λ lm : option landmark_ref, depth_along_z abs (self w) (ext w) <$> lm)
       (landmarks_ (self w)).

(** The depths of the valid landmarks only: the slot is not empty and its
    landmark does not report itself as being erased. *)
Definition valid_slot_depths (abs : bool) (w : world F Obs E) : list F :=
  omap (λ lm : option landmark_ref,
          l ← lm;
          if lm_will_be_erased (ext w) l then None
          else Some (depth_along_z abs (self w) (ext w) l))
       (landmarks_ (self w)).

(** The lower median of a non-empty sequence [sorted] in ascending order. *)
Definition lower_median (sorted : list F) : option F :=
  sorted !! ((length sorted - 1) / 2)%nat.

(** Step (2) of the erasure: the landmark slots are visited in order, from
    collaborator state [e] to [e'], issuing the steps [t]. An empty slot
    and a slot whose landmark is being erased are passed over; any other
    landmark is told to remove its observation of keyframe [this] and, if
    it survives that, to recompute its descriptor and its viewing
    statistics. *)
Inductive landmarks_detached (this : keyframe_ref)
  : list (option landmark_ref) → E → list step → E → Prop :=
| detached_nil e :
    landmarks_detached this [] e [] e
| detached_empty slots e t e' :
    landmarks_detached this slots e t e' →
    landmarks_detached this (None :: slots) e t e'
| detached_erasing l slots e t e' :
    lm_will_be_erased e l = true →
    landmarks_detached this slots e t e' →
    landmarks_detached this (Some l :: slots) e t e'
| detached_survives l slots e t e' :
    lm_will_be_erased e l = false →
    lm_will_be_erased (lm_erase_observation l this e) l = false →
    landmarks_detached this slots
      (lm_update_mean_normal_and_obs_scale_variance l
         (lm_compute_descriptor l (lm_erase_observation l this e))) t e' →
    landmarks_detached this (Some l :: slots) e
      (landmark_erase_observation l :: landmark_compute_descriptor l
       :: landmark_update_mean_normal_and_obs_scale_variance l :: t) e'
| detached_dies l slots e t e' :
    lm_will_be_erased e l = false →
    lm_will_be_erased (lm_erase_observation l this e) l = true →
    landmarks_detached this slots (lm_erase_observation l this e) t e' →
    landmarks_detached this (Some l :: slots) e
      (landmark_erase_observation l :: t) e'.

(** The erasure of the keyframe of [w], leading to [w']: steps (1) to (5)
    in this order, each on the state the previous one left. *)
Definition erased_in_order (w w' : world F Obs E) : Prop :=
  let this := id_ (self w) in
  ∃ (t2 : list step) (e2 : E),
    landmarks_detached this (landmarks_ (self w)) (ext w) t2 e2
    ∧ let e3 := gn_recover_spanning_connections this
                  (gn_erase_all_connections this e2) in
      let parent := gn_get_spanning_parent e3 this in
      self w' = with_will_be_erased true (self w)
      ∧ ext w'
        = bow_erase_keyframe this
            (map_erase_keyframe this
               (map_replace_reference_keyframe this parent e3))
      ∧ trace w'
        = trace w ++ [raise_will_be_erased] ++ t2
            ++ [graph_erase_all_connections;
                graph_recover_spanning_connections;
                map_db_replace_reference_keyframe parent;
                map_db_erase_keyframe;
                bow_db_erase_keyframe].

(** [n] calls of the method [m] in a row. *)
Definition repeated (n : nat) (m : M F Obs E unit) (w : world F Obs E)
    : world F Obs E :=
  Nat.iter n (λ w, (m w).2) w.

(** The per-slot landmark id of the serialised record: -1 for an empty slot
    and for a landmark being erased, the landmark's id otherwise. *)
Definition serialised_landmark_id (e : E) (lm : option landmark_ref) : Z :=
  match lm with
  | None => -1
  | Some l => if lm_will_be_erased e l then -1 else as_int l
  end.

End Specification.

(** ** A concrete implementation of the collaborators

    Used to run the methods on concrete inputs. Modelled from the spec:
    landmark.cc, graph_node.cc, map_database.cc and bow_database.cc are not
    among the sources. A landmark owns its position, its observer set of
    (keyframe, slot) pairs and an erasure flag, and is erased when its last
    observer goes (sections 3 and 4.1); a graph node owns its covisibility
    neighbours, spanning parent, spanning children and loop edges, and
    spanning-tree repair re-parents the children of the erased node to the
    root (section 4.2); the registries are sets of keyframes (section 6). *)
Module Sim.

Record landmark := mkLandmark {
  pos_w_ : Vec3 Z;
  observations_ : list (keyframe_ref * nat);
  lm_will_be_erased_ : bool
}.

Record graph_node := mkNode {
  connected_keyfrms_ : list keyframe_ref;
  spanning_parent_ : option keyframe_ref;
  spanning_children_ : list keyframe_ref;
  loop_edges_ : list keyframe_ref
}.

Record state := mkState {
  landmarks : list (landmark_ref * landmark);
  nodes : list (keyframe_ref * graph_node);
  origin_keyfrm_ : keyframe_ref;
  reference_keyfrm_ : option keyframe_ref;
  map_keyframes_ : list keyframe_ref;
  bow_keyframes_ : list keyframe_ref
}.

Fixpoint find {V : Type} (key : Z) (l : list (Z * V)) : option V :=
  match l with
  | [] => None
  | (k, v) :: l' => if Z.eqb k key then Some v else find key l'
  end.

Fixpoint update {V : Type} (key : Z) (f : V → V) (l : list (Z * V)) : list (Z * V) :=
  match l with
  | [] => []
  | (k, v) :: l' =>
      if Z.eqb k key then (k, f v) :: l' else (k, v) :: update key f l'
  end.

Definition without (key : Z) (l : list Z) : list Z :=
  filter (λ k, k ≠ key) l.

Definition with_landmark_table (t : list (landmark_ref * landmark)) (s : state) : state :=
  mkState t (nodes s) (origin_keyfrm_ s) (reference_keyfrm_ s)
    (map_keyframes_ s) (bow_keyframes_ s).

Definition with_nodes (n : list (keyframe_ref * graph_node)) (s : state) : state :=
  mkState (landmarks s) n (origin_keyfrm_ s) (reference_keyfrm_ s)
    (map_keyframes_ s) (bow_keyframes_ s).

Definition will_be_erased (s : state) (l : landmark_ref) : bool :=
  match find l (landmarks s) with
  | Some lm => lm_will_be_erased_ lm
  | None => true
  end.

Definition get_pos_in_world (s : state) (l : landmark_ref) : Vec3 Z :=
  match find l (landmarks s) with
  | Some lm => pos_w_ lm
  | None => mkVec3 0 0 0
  end.

Definition get_index_in_keyframe (s : state) (l : landmark_ref) (k : keyframe_ref) : Z :=
  match find l (landmarks s) with
  | Some lm =>
      match find k (observations_ lm) with
      | Some idx => Z.of_nat idx
      | None => -1
      end
  | None => -1
  end.

Definition num_observations (s : state) (l : landmark_ref) : nat :=
  match find l (landmarks s) with
  | Some lm => length (observations_ lm)
  | None => 0%nat
  end.

Definition add_observation (l : landmark_ref) (k : keyframe_ref) (idx : nat)
    (s : state) : state :=
  with_landmark_table
    (update l (λ lm,
       mkLandmark (pos_w_ lm)
         ((k, idx) :: filter (λ o, o.1 ≠ k) (observations_ lm))
         (lm_will_be_erased_ lm))
       (landmarks s)) s.

Definition erase_observation (l : landmark_ref) (k : keyframe_ref) (s : state) : state :=
  with_landmark_table
    (update l (λ lm,
       let remaining := filter (λ o, o.1 ≠ k) (observations_ lm) in
       mkLandmark (pos_w_ lm) remaining
         (lm_will_be_erased_ lm || bool_decide (remaining = [])))
       (landmarks s)) s.

Definition node_of (s : state) (k : keyframe_ref) : graph_node :=
  default (mkNode [] None [] []) (find k (nodes s)).

Definition erase_all_connections (k : keyframe_ref) (s : state) : state :=
  with_nodes
    (map (λ kn : keyframe_ref * graph_node,
       let n := kn.2 in
       (kn.1,
        mkNode (if Z.eqb kn.1 k then [] else without k (connected_keyfrms_ n))
          (spanning_parent_ n) (spanning_children_ n) (loop_edges_ n)))
       (nodes s)) s.

Definition recover_spanning_connections (k : keyframe_ref) (s : state) : state :=
  let me := node_of s k in
  let root := origin_keyfrm_ s in
  with_nodes
    (map (λ kn : keyframe_ref * graph_node,
       let n := kn.2 in
       (kn.1,
        if Z.eqb kn.1 k then
          mkNode (connected_keyfrms_ n) (spanning_parent_ n) [] (loop_edges_ n)
        else
          mkNode (connected_keyfrms_ n)
            (if bool_decide (kn.1 ∈ spanning_children_ me) then Some root
             else spanning_parent_ n)
            (without k (spanning_children_ n)
             ++ (if Z.eqb kn.1 root then spanning_children_ me else []))
            (loop_edges_ n)))
       (nodes s)) s.

Definition replace_reference_keyframe (old : keyframe_ref) (new : option keyframe_ref)
    (s : state) : state :=
  mkState (landmarks s) (nodes s) (origin_keyfrm_ s)
    (if bool_decide (reference_keyfrm_ s = Some old) then new else reference_keyfrm_ s)
    (map_keyframes_ s) (bow_keyframes_ s).

Definition map_erase (k : keyframe_ref) (s : state) : state :=
  mkState (landmarks s) (nodes s) (origin_keyfrm_ s) (reference_keyfrm_ s)
    (without k (map_keyframes_ s)) (bow_keyframes_ s).

Definition bow_erase (k : keyframe_ref) (s : state) : state :=
  mkState (landmarks s) (nodes s) (origin_keyfrm_ s) (reference_keyfrm_ s)
    (map_keyframes_ s) (without k (bow_keyframes_ s)).

#[global] Instance collaborators : Collaborators Z state := {|
  lm_will_be_erased := will_be_erased;
  lm_get_pos_in_world := get_pos_in_world;
  lm_get_index_in_keyframe := get_index_in_keyframe;
  lm_num_observations := num_observations;
  lm_add_observation := add_observation;
  lm_erase_observation := erase_observation;
  lm_compute_descriptor := λ _ s, s;
  lm_update_mean_normal_and_obs_scale_variance := λ _ s, s;
  gn_has_loop_edge := λ s k, negb (bool_decide (loop_edges_ (node_of s k) = []));
  gn_get_spanning_parent := λ s k, spanning_parent_ (node_of s k);
  gn_get_spanning_children := λ s k, spanning_children_ (node_of s k);
  gn_get_loop_edges := λ s k, loop_edges_ (node_of s k);
  gn_erase_all_connections := erase_all_connections;
  gn_recover_spanning_connections := recover_spanning_connections;
  map_origin_keyfrm_ := origin_keyfrm_;
  map_replace_reference_keyframe := replace_reference_keyframe;
  map_erase_keyframe := map_erase;
  bow_erase_keyframe := bow_erase
|}.

(** Modelled from the spec: the converters [to_json] calls are declared
    outside keyframe.cc. The persisted record holds the rotation and
    translation blocks of the pose and the feature arrays (section 6), so a
    converted value is the value given, tagged by the converter that made
    it. *)
Inductive json_value : Type :=
| rotation_json (rot_cw : Mat33 Z)
| translation_json (trans_cw : Vec3 Z)
| keypoints_json (keypts : unit)
| descriptors_json (descriptors : unit).

#[global] Instance converters : JsonConverters Z unit json_value := {|
  convert_rotation_to_json := rotation_json;
  convert_translation_to_json := translation_json;
  convert_keypoints_to_json := keypoints_json;
  convert_descriptors_to_json := descriptors_json
|}.

(** A map of three keyframes: the origin 0, its child 1 and 1's child 2.
    Landmark 10 is seen by 0, 1 and 2; landmark 11 by 1 only; landmark 12 is
    being erased. *)
Definition demo : state :=
  mkState
    [(10, mkLandmark (mkVec3 0 0 5) [(0, 0%nat); (1, 0%nat); (2, 0%nat)] false);
     (11, mkLandmark (mkVec3 0 0 1) [(1, 2%nat)] false);
     (12, mkLandmark (mkVec3 0 0 1) [] true)]
    [(0, mkNode [1; 2] None [1] []);
     (1, mkNode [0; 2] (Some 0) [2] []);
     (2, mkNode [0; 1] (Some 1) [] [])]
    0 (Some 1) [0; 1; 2] [0; 1; 2].

(** Keyframe 1 of [demo]: four feature slots, holding landmark 10, the
    erasing landmark 12, landmark 11, and nothing. *)
Definition demo_keyframe : keyframe Z unit :=
  mkKeyframe 1 0 (mkCamera "cam" Monocular) (mkOrbParams "orb")
    (mkFrameObservation 4%nat tt tt tt tt)
    [Some 10; Some 12; Some 11; None]
    Identity44 Identity44 (mkVec3 0 0 0) false false.

Definition demo_world : world Z unit state := mkWorld demo_keyframe demo [].

(** Keyframe 0 of [demo], the origin of the map and the root of the
    spanning tree. *)
Definition origin_keyframe : keyframe Z unit :=
  mkKeyframe 0 0 (mkCamera "cam" Monocular) (mkOrbParams "orb")
    (mkFrameObservation 1%nat tt tt tt tt)
    [Some 10]
    Identity44 Identity44 (mkVec3 0 0 0) false false.

Definition origin_world : world Z unit state := mkWorld origin_keyframe demo [].

(** Keyframe 2 of [demo] with two slots: the first holds landmark 12, which
    is being erased and lies at depth 1, the second landmark 10, at
    depth 5. *)
Definition stale_keyframe : keyframe Z unit :=
  mkKeyframe 2 0 (mkCamera "cam" Monocular) (mkOrbParams "orb")
    (mkFrameObservation 2%nat tt tt tt tt)
    [Some 12; Some 10]
    Identity44 Identity44 (mkVec3 0 0 0) false false.

Definition stale_world : world Z unit state := mkWorld stale_keyframe demo [].

(** Landmarks at depths 3, 1, 4 and 2, and a keyframe that holds them in
    this order with an empty slot in between. *)
Definition four_depths : state :=
  mkState
    [(33, mkLandmark (mkVec3 0 0 3) [(5, 0%nat)] false);
     (31, mkLandmark (mkVec3 7 0 1) [(5, 2%nat)] false);
     (34, mkLandmark (mkVec3 0 9 4) [(5, 3%nat)] false);
     (32, mkLandmark (mkVec3 0 0 2) [(5, 4%nat)] false)]
    [(5, mkNode [] None [] [])]
    5 None [5] [5].

Definition four_depths_keyframe : keyframe Z unit :=
  mkKeyframe 5 0 (mkCamera "cam" Stereo) (mkOrbParams "orb")
    (mkFrameObservation 5%nat tt tt tt tt)
    [Some 33; None; Some 31; Some 34; Some 32]
    Identity44 Identity44 (mkVec3 0 0 0) false false.

Definition four_depths_world : world Z unit state :=
  mkWorld four_depths_keyframe four_depths [].

(** Keyframe 1 of [demo] after its slot 0 was given to landmark 11, while
    landmark 10 still records slot 0 of keyframe 1. *)
Definition reassigned_world : world Z unit state :=
  mkWorld (with_landmarks [Some 11; Some 12; Some 11; None] demo_keyframe) demo [].

(** A frame that announces two keypoints and carries no landmark slot. *)
Definition short_frame : frame Z unit :=
  mkFrame 0 (mkCamera "cam" Monocular) (mkOrbParams "orb")
    (mkFrameObservation 2%nat tt tt tt tt) [] Identity44.

(** A quarter turn about the optical axis followed by the translation
    (1, 2, 3). *)
Definition quarter_turn : Mat44 Z :=
  mkMat44 (mkVec4 0 (-1) 0 1) (mkVec4 1 0 0 2) (mkVec4 0 0 1 3) (mkVec4 0 0 0 1).

End Sim.

(** ** Further vocabulary *)

Section MoreSpecification.
Context {F Obs E : Type} `{Scalar F} `{Collaborators F E}.

(** The cached inverse pose and camera centre are those [set_pose_cw]
    computes from the stored [pose_cw_]. *)
Definition pose_coherent (k : keyframe F Obs) : Prop :=
  trans_wc_ k
  = mat33_mul_vec (mat33_opp (transpose (block33 (pose_cw_ k)))) (block31 (pose_cw_ k))
  ∧ pose_wc_ k
    = set_block31 (set_block33 Identity44 (transpose (block33 (pose_cw_ k))))
        (trans_wc_ k).

(** A slot that holds a landmark which is not being erased. *)
Definition valid_slot (e : E) (lm : option landmark_ref) : bool :=
  match lm with
  | None => false
  | Some l => negb (lm_will_be_erased e l)
  end.

(** A valid slot whose landmark has at least [thr] observations. *)
Definition tracked_slot (thr : nat) (e : E) (lm : option landmark_ref) : bool :=
  match lm with
  | None => false
  | Some l =>
      negb (lm_will_be_erased e l) && bool_decide (thr ≤ lm_num_observations e l)%nat
  end.

(** The three calls [update_landmarks] makes on the landmark of slot
    [idx], as one change of the collaborators. *)
Definition refreshed (this : keyframe_ref) (l : landmark_ref) (idx : nat) (e : E) : E :=
  lm_compute_descriptor l
    (lm_update_mean_normal_and_obs_scale_variance l
       (lm_add_observation l this idx e)).

(** The steps of [update_landmarks] over [slots], the first of which has
    index [i], when the validity of the slots is read in state [e]. *)
Fixpoint refresh_steps (e : E) (i : nat) (slots : list (option landmark_ref))
    : list step :=
  match slots with
  | [] => []
  | lm :: slots =>
      match lm with
      | Some l =>
          if lm_will_be_erased e l then []
          else [landmark_add_observation l i;
                landmark_update_mean_normal_and_obs_scale_variance l;
                landmark_compute_descriptor l]
      | None => []
      end ++ refresh_steps e (S i) slots
  end.

(** The state of the collaborators after these steps. *)
Fixpoint refresh_all (this : keyframe_ref) (e0 : E) (i : nat)
    (slots : list (option landmark_ref)) (e : E) : E :=
  match slots with
  | [] => e
  | lm :: slots =>
      refresh_all this e0 (S i) slots
        (match lm with
         | Some l => if lm_will_be_erased e0 l then e else refreshed this l i e
         | None => e
         end)
  end.

(** The landmark a step is addressed to, if it is a call on a landmark. *)
Definition step_landmark (s : step) : option landmark_ref :=
  match s with
  | landmark_add_observation l _
  | landmark_erase_observation l
  | landmark_compute_descriptor l
  | landmark_update_mean_normal_and_obs_scale_variance l => Some l
  | _ => None
  end.

(** The body of the loop of [get_valid_landmarks]. *)
Definition collect_valid (valid_landmarks : list landmark_ref) (lm : option landmark_ref)
    : M F Obs E (list landmark_ref) :=
  match lm with
  | None => mret valid_landmarks
  | Some l =>
      erased ← observe (λ e, lm_will_be_erased e l);
      if erased : bool then mret valid_landmarks
      else if decide (l ∈ valid_landmarks) then mret valid_landmarks
      else mret (valid_landmarks ++ [l])
  end.

(** The bodies of the two loops of [get_num_tracked_landmarks]. *)
Definition count_tracked (min_num_obs_thr : nat) (num_tracked_lms : nat)
    (lm : option landmark_ref) : M F Obs E nat :=
  match lm with
  | None => mret num_tracked_lms
  | Some l =>
      erased ← observe (λ e, lm_will_be_erased e l);
      if erased : bool then mret num_tracked_lms
      else
        num_observations ← observe (λ e, lm_num_observations e l);
        if decide (min_num_obs_thr ≤ num_observations)%nat
        then mret (S num_tracked_lms)
        else mret num_tracked_lms
  end.

Definition count_valid (num_tracked_lms : nat) (lm : option landmark_ref) : M F Obs E nat :=
  match lm with
  | None => mret num_tracked_lms
  | Some l =>
      erased ← observe (λ e, lm_will_be_erased e l);
      if erased : bool then mret num_tracked_lms
      else mret (S num_tracked_lms)
  end.

(** The number of slots that count for threshold [thr]. *)
Definition tracked_count (thr : nat) (e : E) (slots : list (option landmark_ref)) : nat :=
  length (filter (λ lm, tracked_slot thr e lm = true) slots).

(** The body of the loop of [update_landmarks]. *)
Definition refresh_slot (this : keyframe_ref) (idx : nat) : M F Obs E unit :=
  k ← get_self;
  lm ← lift (at_ (landmarks_ k) idx);
  match lm with
  | None => mret tt
  | Some l =>
      erased ← observe (λ e, lm_will_be_erased e l);
      if erased : bool then mret tt
      else
        issue (landmark_add_observation l idx) (lm_add_observation l this idx);;
        issue (landmark_update_mean_normal_and_obs_scale_variance l)
              (lm_update_mean_normal_and_obs_scale_variance l);;
        issue (landmark_compute_descriptor l) (lm_compute_descriptor l)
  end.

(** The calls of [update_landmarks] leave the erasure flags of the
    landmarks alone. *)
Definition refresh_keeps_flags (this : keyframe_ref) : Prop :=
  ∀ (l : landmark_ref) (idx : nat) (e : E) (l' : landmark_ref),
    lm_will_be_erased (refreshed this l idx e) l' = lm_will_be_erased e l'.

(** A step that is a call on a landmark is a call on a landmark held by
    one of [slots]. *)
Definition addresses_only (slots : list (option landmark_ref)) (s : step) : Prop :=
  ∀ l, step_landmark s = Some l → Some l ∈ slots.

(** The steps [update_landmarks] may issue. *)
Definition refresh_step (s : step) : Prop :=
  match s with
  | landmark_add_observation _ _
  | landmark_update_mean_normal_and_obs_scale_variance _
  | landmark_compute_descriptor _ => True
  | _ => False
  end.

(** The steps [prepare_for_erasing] may issue. *)
Definition erasure_step (s : step) : Prop :=
  match s with
  | landmark_add_observation _ _ => False
  | _ => True
  end.

(** The keyframe is behind one of the guards of [prepare_for_erasing]. *)
Definition guarded (w : world F Obs E) : bool :=
  keyframe_eqb (id_ (self w)) (map_origin_keyfrm_ (ext w))
  || cannot_be_erased_ (self w).

(** A call of [set_not_to_be_erased] on the keyframe of [w]. *)
Definition pinned (w : world F Obs E) : world F Obs E :=
  mkWorld (set_not_to_be_erased (self w)) (ext w) (trace w).

End MoreSpecification.

(** ** Calls on the keyframe object

    [add_landmark], [erase_landmark_with_index] and [get_landmark] above
    are functions of the keyframe's value. Called on the object the caller
    holds, a method that returns leaves its result in the object, and one
    that throws leaves the object as it was ([landmarks_.at(idx)] throws
    before anything is assigned), with the writes of the calls before it.
    Calls are put one after another with the bind of the method monad. *)
Section ObjectCalls.
Context {F Obs E : Type}.

Definition call (method : keyframe F Obs → outcome (keyframe F Obs)) : M F Obs E unit :=
  k ← get_self;
  k' ← lift (method k);
  set_self k'.

Definition query {A : Type} (method : keyframe F Obs → outcome A) : M F Obs E A :=
  k ← get_self;
  lift (method k).

End ObjectCalls.

(** ** Markers

    [markers_] maps a marker id to the marker; it is kept beside the
    keyframe record. A [std::shared_ptr<marker>] is the marker's [id_]
    with what else the marker holds. *)
Section Markers.
Context {P : Type}.

Record marker := mkMarker { mkr_id_ : Z; mkr_data_ : P }.

(** [keyframe::add_marker]: [markers_[mkr->id_] = mkr]. *)
Definition add_marker (mkr : marker) (markers_ : gmap Z marker) : gmap Z marker :=
  <[mkr_id_ mkr := mkr]> markers_.

(** [keyframe::get_markers]: the markers in the iteration order of the
    container. *)
Definition get_markers (markers_ : gmap Z marker) : list marker :=
  foldl (λ markers id_marker, markers ++ [id_marker.2]) [] (map_to_list markers_).

(** Every marker of the table is filed under its own id, as in a table
    filled by [add_marker]. *)
Definition markers_filed_by_id (markers_ : gmap Z marker) : Prop :=
  ∀ i mkr, markers_ !! i = Some mkr → mkr_id_ mkr = i.

End Markers.

Arguments marker : clear implicits.
Arguments mkMarker {P} _ _.

(** More concrete inputs. *)
Module Cases.

(** Keyframe 1 of [Sim.demo], pinned, its graph node holding a loop edge
    with keyframe 2. *)
Definition looped : Sim.state :=
  Sim.with_nodes
    [(0, Sim.mkNode [1; 2] None [1] []);
     (1, Sim.mkNode [0; 2] (Some 0) [2] [2]);
     (2, Sim.mkNode [0; 1] (Some 1) [] [1])] Sim.demo.

Definition looped_world : world Z unit Sim.state :=
  mkWorld Sim.demo_keyframe looped [].

(** A keyframe of [Sim.demo] without any landmark. *)
Definition bare_keyframe : keyframe Z unit :=
  mkKeyframe 2 0 (mkCamera "cam" Stereo) (mkOrbParams "orb")
    (mkFrameObservation 3%nat tt tt tt tt)
    [None; None; None]
    Identity44 Identity44 (mkVec3 0 0 0) false false.

Definition bare_world : world Z unit Sim.state :=
  mkWorld bare_keyframe Sim.demo [].

(** Keyframe 1 of [Sim.demo] holding landmark 10 in two slots. *)
Definition twice_world : world Z unit Sim.state :=
  mkWorld (with_landmarks [Some 10; Some 12; Some 11; Some 10] Sim.demo_keyframe)
    Sim.demo [].

(** Landmark 10 of [Sim.demo] records a slot of keyframe 1 that the
    keyframe does not have. *)
Definition misrecorded : Sim.state :=
  Sim.with_landmark_table
    [(10, Sim.mkLandmark (mkVec3 0 0 5) [(1, 9%nat)] false)] Sim.demo.

Definition misrecorded_world : world Z unit Sim.state :=
  mkWorld Sim.demo_keyframe misrecorded [].

Definition marker_a : marker nat := mkMarker 3 7%nat.
Definition marker_b : marker nat := mkMarker 5 8%nat.
Definition marker_a' : marker nat := mkMarker 3 9%nat.

End Cases.

(** ** The pose cache *)

#[global] Instance Z_scalar_ring : ScalarRing Z.
Proof.
  constructor; intros; unfold fsub; cbn; lia.
Qed.

Section Pose.
Context {F Obs : Type} `{ScalarRing F}.

Add Ring scalar_ring_inst : scalar_ring.

Lemma mat33_opp_mul_vec (m : Mat33 F) (v : Vec3 F) :
  mat33_mul_vec (mat33_opp m) v = vec3_opp (mat33_mul_vec m v).
Proof.
  destruct m as [[] [] []], v. unfold mat33_mul_vec, mat33_opp, vec3_opp, dot; cbn.
  f_equal; ring.
Qed.

(** What [set_pose_cw] stores, for any scalar arithmetic. *)
Lemma set_pose_cw_fields (T : Mat44 F) (k : keyframe F Obs) :
  pose_cw_ (set_pose_cw T k) = T
  ∧ trans_wc_ (set_pose_cw T k)
    = mat33_mul_vec (mat33_opp (transpose (block33 T))) (block31 T)
  ∧ pose_wc_ (set_pose_cw T k)
    = set_block31 (set_block33 Identity44 (transpose (block33 T)))
        (mat33_mul_vec (mat33_opp (transpose (block33 T))) (block31 T)).
Proof. done. Qed.

Ltac by_orthonormality :=
  first
    [ ring
    | match goal with
      | Hq : ?e = ?c |- _ = ?c => transitivity e; [ring | exact Hq]
      end ].

Ltac by_rows ra rb rc ta tb tc ti :=
  match type of ra with
  | ?ea = _ =>
    match type of rb with
    | ?eb = _ =>
      match type of rc with
      | ?ec = _ =>
        transitivity
          (fadd (fopp (fadd (fadd (fmul ea ta) (fmul eb tb)) (fmul ec tc))) ti);
        [ring | rewrite ra, rb, rc; ring]
      end
    end
  end.

Lemma rigid_inverse (T : Mat44 F) :
  orthonormal (block33 T) → affine T →
  let P := set_block31 (set_block33 Identity44 (transpose (block33 T)))
             (vec3_opp (mat33_mul_vec (transpose (block33 T)) (block31 T))) in
  mat44_mul P T = Identity44 ∧ mat44_mul T P = Identity44.
Proof.
  destruct T as [[a00 a01 a02 a03] [a10 a11 a12 a13] [a20 a21 a22 a23] r3].
  unfold orthonormal, affine; cbn. intros [Hc Hr] ->.
  unfold mat33_mul, Identity33, dot in Hc, Hr; cbn in Hc, Hr.
  injection Hc as c00 c01 c02 c10 c11 c12 c20 c21 c22.
  injection Hr as r00 r01 r02 r10 r11 r12 r20 r21 r22.
  unfold mat44_mul, Identity44, dot4, mat33_mul_vec, vec3_opp, dot, block31; cbn.
  split; repeat f_equal; try by_orthonormality.
  - by_rows r00 r01 r02 a03 a13 a23 a03.
  - by_rows r10 r11 r12 a03 a13 a23 a13.
  - by_rows r20 r21 r22 a03 a13 a23 a23.
Qed.

(** C6. After [set_pose_cw(T)], for a transform [T] whose rotation block
    [R] is orthonormal and whose last row is (0,0,0,1): [get_pose_cw]
    returns [T]; [get_pose_wc] returns the rigid inverse of [T], that is
    the matrix with rotation block [Rᵗ], translation [-Rᵗ t] and last row
    (0,0,0,1), which multiplied with [T] on either side gives the
    identity; [get_trans_wc] returns [-Rᵗ t]. The three are assigned by
    the one transition [set_pose_cw], whose body [mtx_pose_] guards
    entirely, and none of them depends on the previous pose. *)
Theorem set_pose_cw_rigid_inverse (T : Mat44 F) (k : keyframe F Obs) :
  orthonormal (block33 T) → affine T →
  let R := block33 T in
  let t := block31 T in
  let k' := set_pose_cw T k in
  get_pose_cw k' = T
  ∧ block33 (get_pose_wc k') = transpose R
  ∧ block31 (get_pose_wc k') = vec3_opp (mat33_mul_vec (transpose R) t)
  ∧ m4r3 (get_pose_wc k') = mkVec4 fzero fzero fzero fone
  ∧ mat44_mul (get_pose_wc k') T = Identity44
  ∧ mat44_mul T (get_pose_wc k') = Identity44
  ∧ get_trans_wc k' = vec3_opp (mat33_mul_vec (transpose R) t)
  ∧ (∀ k2 : keyframe F Obs,
       (get_pose_cw (set_pose_cw T k2), get_pose_wc (set_pose_cw T k2),
        get_trans_wc (set_pose_cw T k2))
       = (get_pose_cw k', get_pose_wc k', get_trans_wc k')).
Proof.
  intros Ho Ha R t k'.
  destruct (set_pose_cw_fields T k) as (Hcw & Htr & Hwc).
  destruct (rigid_inverse T Ho Ha) as [Hl Hr].
  unfold get_pose_cw, get_pose_wc, get_trans_wc. subst k'.
  rewrite Hcw, Htr, Hwc, mat33_opp_mul_vec.
  split_and!; try done.
  intros k2. by rewrite !(proj1 (set_pose_cw_fields T k2)),
    !(proj1 (proj2 (set_pose_cw_fields T k2))),
    !(proj2 (proj2 (set_pose_cw_fields T k2))), mat33_opp_mul_vec.
Qed.

End Pose.

(** ** Machine-integer facts *)

Lemma as_unsigned_small (z : Z) : 0 ≤ z < 2 ^ 32 → as_unsigned z = z.
Proof. intros Hz. unfold as_unsigned. by apply Z.mod_small. Qed.

Lemma as_int_small (z : Z) : - 2 ^ 31 ≤ z < 2 ^ 31 → as_int z = z.
Proof. intros Hz. unfold as_int. rewrite Z.mod_small; lia. Qed.

Lemma as_unsigned_minus_one : as_unsigned (-1) = 4294967295.
Proof. reflexivity. Qed.

(** ** [std::vector::at] *)

Lemma at_returned {A : Type} (v : list A) (idx : nat) :
  (idx < length v)%nat → ∃ x, v !! idx = Some x ∧ at_ v idx = Returned x.
Proof.
  intros Hlt. destruct (lookup_lt_is_Some_2 v idx Hlt) as [x Hx].
  exists x. unfold at_. by rewrite Hx.
Qed.

Lemma at_thrown {A : Type} (v : list A) (idx : nat) :
  at_ v idx = Thrown out_of_range ↔ (length v ≤ idx)%nat.
Proof.
  unfold at_. destruct (v !! idx) as [x|] eqn:Hx.
  - apply lookup_lt_Some in Hx. split; [done | lia].
  - apply lookup_ge_None in Hx. done.
Qed.

Lemma at_put_returned {A : Type} (v : list A) (idx : nat) (x : A) :
  (idx < length v)%nat → at_put v idx x = Returned (<[idx := x]> v).
Proof. intros Hlt. unfold at_put. by rewrite decide_True. Qed.

Lemma at_put_thrown {A : Type} (v : list A) (idx : nat) (x : A) :
  at_put v idx x = Thrown out_of_range ↔ (length v ≤ idx)%nat.
Proof.
  unfold at_put. destruct (decide (idx < length v)%nat); split; (done || lia).
Qed.

Lemma at_put_length {A : Type} (v v' : list A) (idx : nat) (x : A) :
  at_put v idx x = Returned v' → length v' = length v.
Proof.
  unfold at_put. destruct (decide _); [|done].
  intros [= <-]. apply length_insert.
Qed.

(** ** Landmark slots *)

Section Slots.
Context {F Obs E : Type} `{Scalar F} `{Collaborators F E}.

Implicit Types (k : keyframe F Obs) (w : world F Obs E).

Lemma set_pose_cw_landmarks (T : Mat44 F) k :
  landmarks_ (set_pose_cw T k) = landmarks_ k
  ∧ frm_obs_ (set_pose_cw T k) = frm_obs_ k.
Proof. done. Qed.

Lemma add_landmark_shape lm idx k k' :
  add_landmark lm idx k = Returned k' →
  length (landmarks_ k') = length (landmarks_ k) ∧ frm_obs_ k' = frm_obs_ k.
Proof.
  unfold add_landmark. destruct (at_put _ _ _) as [v|] eqn:Hv; [|done].
  intros [= <-]. split; [|done]. cbn. by eapply at_put_length.
Qed.

Lemma erase_landmark_with_index_shape idx k k' :
  erase_landmark_with_index idx k = Returned k' →
  length (landmarks_ k') = length (landmarks_ k) ∧ frm_obs_ k' = frm_obs_ k.
Proof.
  unfold erase_landmark_with_index. destruct (at_put _ _ _) as [v|] eqn:Hv; [|done].
  intros [= <-]. split; [|done]. cbn. by eapply at_put_length.
Qed.

(** What [erase_landmark] does, by the index [idx] the landmark reports:
    nothing when it is negative, [std::out_of_range] when it is not a slot,
    the slot cleared otherwise. *)
Lemma erase_landmark_cases (lm : landmark_ref) w :
  let idx := lm_get_index_in_keyframe (ext w) lm (id_ (self w)) in
  let slot := Z.to_nat (as_unsigned idx) in
  erase_landmark lm w
  = if decide (0 ≤ idx) then
      if decide (slot < length (landmarks_ (self w)))%nat then
        (Returned tt,
         mkWorld (with_landmarks (<[slot := None]> (landmarks_ (self w))) (self w))
                 (ext w) (trace w))
      else (Thrown out_of_range, w)
    else (Returned tt, w).
Proof.
  unfold erase_landmark, mbind, M_bind, shared_from_this, observe; cbn.
  destruct (decide (0 ≤ _)); [|done].
  unfold get_self, lift, at_put; cbn.
  destruct (decide (_ < _)%nat); [|done]. by destruct w.
Qed.

Lemma erase_landmark_shape (lm : landmark_ref) w :
  length (landmarks_ (self (erase_landmark lm w).2)) = length (landmarks_ (self w))
  ∧ frm_obs_ (self (erase_landmark lm w).2) = frm_obs_ (self w).
Proof.
  rewrite erase_landmark_cases. cbn.
  repeat destruct (decide _); cbn; by rewrite ?length_insert.
Qed.

(** A loop whose body leaves this keyframe alone leaves it alone. *)
Lemma for_each_self {A : Type} (l : list A) (body : A → M F Obs E unit) w :
  (∀ x w0, self (body x w0).2 = self w0) →
  self (for_each l body w).2 = self w.
Proof.
  intros Hbody. revert w. induction l as [|x l IH]; intros w; [done|].
  cbn. unfold mbind, M_bind. specialize (Hbody x w).
  destruct (body x w) as [[[]|e] w1]; cbn in *; [|done].
  by rewrite IH.
Qed.

Lemma update_landmarks_self w : self (update_landmarks w).2 = self w.
Proof.
  unfold update_landmarks, mbind, M_bind, shared_from_this, get_self; cbn.
  apply for_each_self. intros idx w0.
  unfold lift, observe, issue, at_; cbn.
  destruct (landmarks_ (self w0) !! idx) as [[l|]|]; cbn; try done.
  by destruct (lm_will_be_erased (ext w0) l).
Qed.

End Slots.

Section SlotProperties.
Context {F Obs E : Type} `{Scalar F} `{Collaborators F E}.

Implicit Types (k : keyframe F Obs) (w : world F Obs E).

(** C7 (amended). The constructor from persisted fields creates as many
    landmark slots as there are feature observations. The constructor from
    a frame adopts the frame's landmark vector and the frame's observations
    as they are, so the keyframe has one slot per observation exactly when
    the frame has. [add_landmark], [erase_landmark_with_index],
    [erase_landmark] and [update_landmarks] change neither the number of
    slots nor the observations, whether they return or throw, so each of
    them preserves the equality. *)
Theorem slot_count_invariant :
  (∀ id timestamp pose_cw camera orb (frm_obs : frame_observation Obs),
     slots_match (F := F)
       (keyframe_of_fields id timestamp pose_cw camera orb frm_obs))
  ∧ (∀ id (frm : frame F Obs),
       slots_match (keyframe_of_frame id frm) ↔ frame_slots_match frm)
  ∧ (∀ k lm idx k',
       slots_match k → add_landmark lm idx k = Returned k' → slots_match k')
  ∧ (∀ k idx k',
       slots_match k → erase_landmark_with_index idx k = Returned k' →
       slots_match k')
  ∧ (∀ w lm, slots_match (self w) → slots_match (self (erase_landmark lm w).2))
  ∧ (∀ w, slots_match (self w) → slots_match (self (update_landmarks w).2)).
Proof.
  unfold slots_match, frame_slots_match. split_and!.
  - intros. cbn. apply length_replicate.
  - intros. done.
  - intros k lm idx k' Hk Hadd.
    destruct (add_landmark_shape _ _ _ _ Hadd) as [-> ->]. done.
  - intros k idx k' Hk Herase.
    destruct (erase_landmark_with_index_shape _ _ _ Herase) as [-> ->]. done.
  - intros w lm Hw.
    destruct (erase_landmark_shape lm w) as [-> ->]. done.
  - intros w Hw. by rewrite update_landmarks_self.
Qed.

(** C8 (amended). In a keyframe with one landmark slot per feature
    observation, for every index below the observation count:
    [add_landmark] returns and the slot then holds the landmark given,
    whatever it held before and whatever was written there earlier;
    [erase_landmark_with_index] returns and the slot is then empty;
    [get_landmark] returns the content of the slot. Each of the three
    throws [std::out_of_range] exactly for the indices from the observation
    count on, and there is no other way for them to fail. *)
Theorem slot_access_within_observation_count k lm idx :
  slots_match k →
  (idx < num_keypts_ (frm_obs_ k))%nat →
  (∃ k', add_landmark lm idx k = Returned k'
         ∧ landmarks_ k' = <[idx := lm]> (landmarks_ k)
         ∧ get_landmark idx k' = Returned lm
         ∧ ∀ lm2, add_landmark lm2 idx k' = add_landmark lm2 idx k)
  ∧ (∃ k', erase_landmark_with_index idx k = Returned k'
           ∧ landmarks_ k' = <[idx := None]> (landmarks_ k)
           ∧ get_landmark idx k' = Returned None)
  ∧ (∃ held, get_landmark idx k = Returned held ∧ landmarks_ k !! idx = Some held)
  ∧ (∀ j e,
       (add_landmark lm j k = Thrown e
        ∨ erase_landmark_with_index j k = Thrown e
        ∨ get_landmark j k = Thrown e) →
       e = out_of_range ∧ (num_keypts_ (frm_obs_ k) ≤ j)%nat)
  ∧ (∀ j, (num_keypts_ (frm_obs_ k) ≤ j)%nat →
       add_landmark lm j k = Thrown out_of_range
       ∧ erase_landmark_with_index j k = Thrown out_of_range
       ∧ get_landmark j k = Thrown out_of_range).
Proof.
  unfold slots_match. intros Hk Hidx. rewrite <- Hk in *.
  assert (Hget : ∀ v, get_landmark idx (with_landmarks (<[idx := v]> (landmarks_ k)) k)
                      = Returned v).
  { intros v. unfold get_landmark, at_; cbn. by rewrite list_lookup_insert_eq. }
  split_and!.
  - exists (with_landmarks (<[idx := lm]> (landmarks_ k)) k).
    unfold add_landmark. rewrite at_put_returned by done. split_and!; try done.
    intros lm2. cbn. rewrite !at_put_returned by (by rewrite ?length_insert).
    by rewrite list_insert_insert_eq.
  - exists (with_landmarks (<[idx := None]> (landmarks_ k)) k).
    unfold erase_landmark_with_index. rewrite at_put_returned by done. done.
  - destruct (at_returned (landmarks_ k) idx Hidx) as (held & Hheld & Hat).
    by exists held.
  - intros j [] Hfail. split; [done|].
    unfold add_landmark, erase_landmark_with_index, get_landmark in Hfail.
    destruct Hfail as [Hf | [Hf | Hf]].
    + apply at_put_thrown with (x := lm). revert Hf.
      by destruct (at_put _ _ _) as [v|[]].
    + apply at_put_thrown with (x := @None landmark_ref). revert Hf.
      by destruct (at_put _ _ _) as [v|[]].
    + by apply at_thrown.
  - intros j Hj. unfold add_landmark, erase_landmark_with_index, get_landmark.
    rewrite (proj2 (at_put_thrown (landmarks_ k) j lm) Hj).
    rewrite (proj2 (at_put_thrown (landmarks_ k) j None) Hj).
    by rewrite (proj2 (at_thrown (landmarks_ k) j) Hj).
Qed.

(** C10 (amended). [erase_landmark(lm)] asks the landmark for its index in
    this keyframe (an [int]). If the index is negative the call returns and
    the world is unchanged. If the index is a slot of the keyframe, the call
    returns with exactly that slot cleared, whatever the slot held (the
    landmark, another landmark or nothing), every other slot and everything
    else unchanged. If the index is at or beyond the number of slots, the
    call throws [std::out_of_range] and the world is unchanged. In every
    case no slot other than the reported one changes. *)
Theorem erase_landmark_clears_reported_slot (lm : landmark_ref) w :
  let idx := lm_get_index_in_keyframe (ext w) lm (id_ (self w)) in
  - 2 ^ 31 ≤ idx < 2 ^ 31 →
  (idx < 0 → erase_landmark lm w = (Returned tt, w))
  ∧ (0 ≤ idx → (Z.to_nat idx < length (landmarks_ (self w)))%nat →
       erase_landmark lm w
       = (Returned tt,
          mkWorld
            (with_landmarks (<[Z.to_nat idx := None]> (landmarks_ (self w))) (self w))
            (ext w) (trace w))
       ∧ landmarks_ (self (erase_landmark lm w).2) !! Z.to_nat idx = Some None)
  ∧ (∀ j : nat, Z.of_nat j ≠ idx →
       landmarks_ (self (erase_landmark lm w).2) !! j = landmarks_ (self w) !! j)
  ∧ (0 ≤ idx → (length (landmarks_ (self w)) ≤ Z.to_nat idx)%nat →
       erase_landmark lm w = (Thrown out_of_range, w)).
Proof.
  intros idx Hint. pose proof (erase_landmark_cases lm w) as Hcases.
  cbn zeta in Hcases. fold idx in Hcases.
  assert (Hbeyond : 0 ≤ idx → (length (landmarks_ (self w)) ≤ Z.to_nat idx)%nat →
                    erase_landmark lm w = (Thrown out_of_range, w)).
  { intros Hpos Hslot. rewrite Hcases.
    rewrite decide_True by done.
    rewrite as_unsigned_small by lia.
    by rewrite decide_False by lia. }
  split_and!; [| | |exact Hbeyond].
  - intros Hneg. rewrite Hcases. by rewrite decide_False by lia.
  - intros Hpos Hslot. rewrite Hcases.
    rewrite decide_True by done.
    rewrite as_unsigned_small by lia.
    rewrite decide_True by done. split; [done|]. cbn.
    by rewrite list_lookup_insert_eq.
  - intros j Hj. rewrite Hcases. clear Hcases.
    destruct (decide (0 ≤ idx)); [|done].
    rewrite as_unsigned_small by lia.
    destruct (decide (_ < _)%nat); [|done]. cbn.
    apply list_lookup_insert_ne. lia.
Qed.

(** C3. [set_to_be_erased] on a keyframe whose graph node holds a loop
    edge changes nothing, however often it is called: [cannot_be_erased_]
    keeps its value, so a pinned keyframe stays pinned. On a keyframe whose
    graph node holds no loop edge it sets [cannot_be_erased_] to [false] and
    changes nothing else. *)
Theorem set_to_be_erased_respects_loop_edges w :
  if gn_has_loop_edge (ext w) (id_ (self w)) then
    set_to_be_erased w = (Returned tt, w)
    ∧ ∀ n, repeated n set_to_be_erased w = w
  else
    set_to_be_erased w
    = (Returned tt, mkWorld (with_cannot_be_erased false (self w)) (ext w) (trace w))
    ∧ cannot_be_erased_ (self (set_to_be_erased w).2) = false.
Proof.
  assert (Hstep : ∀ w0 : world F Obs E,
            set_to_be_erased w0
            = (Returned tt,
               if gn_has_loop_edge (ext w0) (id_ (self w0)) then w0
               else mkWorld (with_cannot_be_erased false (self w0)) (ext w0) (trace w0))).
  { intros w0. unfold set_to_be_erased, mbind, M_bind, shared_from_this, observe; cbn.
    by destruct (gn_has_loop_edge _ _). }
  destruct (gn_has_loop_edge (ext w) (id_ (self w))) eqn:Hloop.
  - split; [by rewrite Hstep, Hloop|].
    induction n as [|n IH]; [done|].
    change (repeated (S n) set_to_be_erased w)
      with (set_to_be_erased (repeated n set_to_be_erased w)).2.
    by rewrite IH, Hstep, Hloop.
  - by rewrite Hstep, Hloop.
Qed.

End SlotProperties.

(** ** The erasure protocol *)

(** Runs the monadic plumbing of a method applied to a world. *)
Ltac run_method :=
  repeat progress
    (unfold mbind, M_bind, mret, M_ret, observe, issue, get_self, set_self,
       shared_from_this, lift, throw, raise_flag; cbn).

Section Erasure.
Context {F Obs E : Type} `{Scalar F} `{Collaborators F E}.

Implicit Types (k : keyframe F Obs) (w : world F Obs E).

Lemma detach_loop (this : keyframe_ref) (slots : list (option landmark_ref)) w :
  ∃ t e',
    for_each slots (detach_slot this) w
    = (Returned tt, mkWorld (self w) e' (trace w ++ t))
    ∧ landmarks_detached this slots (ext w) t e'.
Proof.
  revert w. induction slots as [|lm slots IH]; intros w.
  - exists [], (ext w). rewrite app_nil_r. split; [by destruct w | constructor].
  - cbn [for_each]. unfold mbind at 1, M_bind at 1. destruct lm as [l|]; cbn.
    + run_method.
      destruct (lm_will_be_erased (ext w) l) eqn:Hbefore; cbn.
      * destruct (IH w) as (t & e' & Hrun & Hspec).
        exists t, e'. split; [done | by constructor].
      * destruct (lm_will_be_erased (lm_erase_observation l this (ext w)) l)
          eqn:Hafter; run_method.
        -- match goal with |- context [for_each slots _ ?w1] =>
             destruct (IH w1) as (t & e' & Hrun & Hspec) end.
           exists (landmark_erase_observation l :: t), e'.
           rewrite Hrun. cbn. rewrite <- app_assoc. split; [done|].
           by apply detached_dies.
        -- match goal with |- context [for_each slots _ ?w1] =>
             destruct (IH w1) as (t & e' & Hrun & Hspec) end.
           exists (landmark_erase_observation l :: landmark_compute_descriptor l
                   :: landmark_update_mean_normal_and_obs_scale_variance l :: t), e'.
           rewrite Hrun. cbn. rewrite <- !app_assoc. split; [done|].
           by apply detached_survives.
    + destruct (IH w) as (t & e' & Hrun & Hspec).
      exists t, e'. split; [done | by constructor].
Qed.

(** The slots, the state and the keyframe fix the steps and the state
    reached: step (2) leaves no choice. *)
Lemma landmarks_detached_functional this slots e t1 e1 t2 e2 :
  landmarks_detached this slots e t1 e1 →
  landmarks_detached this slots e t2 e2 →
  t1 = t2 ∧ e1 = e2.
Proof.
  intros H1. revert t2 e2.
  induction H1 as [ e | slots e t e' _ IH | l slots e t e' Hb _ IH
                  | l slots e t e' Hb Ha _ IH | l slots e t e' Hb Ha _ IH ];
    intros t2 e2 H2; inversion H2; subst; try congruence; try done.
  - by apply IH.
  - by apply IH.
  - destruct (IH _ _ ltac:(eassumption)) as [-> ->]. done.
  - destruct (IH _ _ ltac:(eassumption)) as [-> ->]. done.
Qed.

Lemma erased_in_order_functional w w1 w2 :
  erased_in_order w w1 → erased_in_order w w2 → w1 = w2.
Proof.
  intros (t & e & Hd & Hs & He & Ht) (t' & e' & Hd' & Hs' & He' & Ht').
  destruct (landmarks_detached_functional _ _ _ _ _ _ _ Hd Hd') as [<- <-].
  destruct w1, w2; cbn in *. congruence.
Qed.

(** What [prepare_for_erasing] does behind its two guards. *)
Lemma prepare_for_erasing_unguarded w :
  keyframe_eqb (id_ (self w)) (map_origin_keyfrm_ (ext w)) = false →
  cannot_be_erased_ (self w) = false →
  ∃ w', prepare_for_erasing w = (Returned tt, w') ∧ erased_in_order w w'.
Proof.
  intros Horigin Hpinned.
  unfold prepare_for_erasing. run_method. rewrite Horigin, Hpinned. run_method.
  match goal with |- context [for_each _ _ ?w1] =>
    destruct (detach_loop (id_ (self w)) (landmarks_ (self w)) w1)
      as (t & e' & Hrun & Hspec) end.
  rewrite Hrun. run_method. eexists. split; [done|].
  exists t, e'. cbn. split; [done|]. split_and!; try done.
  by rewrite <- !app_assoc.
Qed.

(** Behind either guard nothing happens. *)
Lemma prepare_for_erasing_guarded w :
  keyframe_eqb (id_ (self w)) (map_origin_keyfrm_ (ext w)) = true
  ∨ cannot_be_erased_ (self w) = true →
  prepare_for_erasing w = (Returned tt, w).
Proof.
  intros Hguard.
  unfold prepare_for_erasing. run_method. destruct (keyframe_eqb _ _); [done|].
  destruct Hguard as [? | ->]; done.
Qed.

(** C1. For a keyframe that is neither the origin of the map nor pinned,
    [prepare_for_erasing] returns, and the world it leaves is the one
    reached by these steps in this order, each applied to the state the
    one before left: (1) [will_be_erased_] is set; (2) every landmark slot
    in turn that is neither empty nor being erased has its landmark told to
    erase its observation of this keyframe and, when the landmark is not
    being erased after that, to recompute its descriptor and then its
    viewing statistics; (3) the graph node is told to erase all
    connections and then to recover the spanning connections; (4) the map
    database is told to replace this keyframe as reference by the spanning
    parent read after the recovery, and to erase this keyframe; (5) the BoW
    database is told to erase this keyframe. No other world is reached by
    these steps, the landmark slots themselves are left as they were, and
    [will_be_erased()] is true afterwards. *)
Theorem prepare_for_erasing_steps_in_order w :
  keyframe_eqb (id_ (self w)) (map_origin_keyfrm_ (ext w)) = false →
  cannot_be_erased_ (self w) = false →
  ∃ w',
    prepare_for_erasing w = (Returned tt, w')
    ∧ erased_in_order w w'
    ∧ (∀ w'', erased_in_order w w'' → w'' = w')
    ∧ will_be_erased (self w') = true
    ∧ landmarks_ (self w') = landmarks_ (self w).
Proof.
  intros Horigin Hpinned.
  destruct (prepare_for_erasing_unguarded w Horigin Hpinned) as (w' & Hrun & Hspec).
  exists w'. split_and!; try done.
  - intros w'' Hspec'. by eapply erased_in_order_functional.
  - destruct Hspec as (_ & _ & _ & -> & _). done.
  - destruct Hspec as (_ & _ & _ & -> & _). done.
Qed.

(** C2 (amended). On the origin keyframe of the map and on a pinned
    keyframe, [prepare_for_erasing] returns without any change: the
    keyframe, the collaborators and the trace of steps are as before, and
    so they are after any number of calls. *)
Theorem prepare_for_erasing_refuses_origin_and_pinned w :
  keyframe_eqb (id_ (self w)) (map_origin_keyfrm_ (ext w)) = true
  ∨ cannot_be_erased_ (self w) = true →
  prepare_for_erasing w = (Returned tt, w)
  ∧ ∀ n, repeated n prepare_for_erasing w = w.
Proof.
  intros Hguard. pose proof (prepare_for_erasing_guarded w Hguard) as Hrun.
  split; [done|].
  induction n as [|n IH]; [done|].
  change (repeated (S n) prepare_for_erasing w)
    with (prepare_for_erasing (repeated n prepare_for_erasing w)).2.
  by rewrite IH, Hrun.
Qed.

End Erasure.

(** ** Median depth *)

#[global] Instance Z_scalar_order : ScalarOrder Z.
Proof.
  split; unfold fle; cbn; intros; rewrite ?Z.ltb_ge in *; lia.
Qed.

Section Sorting.
Context {F : Type} `{ScalarOrder F}.

#[local] Instance fle_total_inst : Total (fle (F := F)).
Proof. intros a b. apply fle_total. Qed.

#[local] Instance fle_trans_inst : Transitive (fle (F := F)).
Proof. intros a b c. apply fle_trans. Qed.

#[local] Instance fle_antisym_inst : AntiSymm (=) (fle (F := F)).
Proof. intros a b. apply fle_antisym. Qed.

(** [std::sort] returns the ascending rearrangement of its input, and
    there is only one. *)
Lemma std_sort_spec (v : list F) :
  Sorted fle (std_sort v) ∧ std_sort v ≡ₚ v
  ∧ ∀ sorted, Sorted fle sorted → sorted ≡ₚ v → sorted = std_sort v.
Proof.
  unfold std_sort. split_and!.
  - apply Sorted_merge_sort. apply _.
  - apply merge_sort_Permutation.
  - intros sorted Hs Hp. apply (Sorted_unique fle); [done | | ].
    + apply Sorted_merge_sort. apply _.
    + by rewrite merge_sort_Permutation.
Qed.

(** Four values in ascending order, in any arrangement, sort to that
    order. *)
Lemma std_sort_four (v : list F) (d1 d2 d3 d4 : F) :
  fle d1 d2 → fle d2 d3 → fle d3 d4 → v ≡ₚ [d1; d2; d3; d4] →
  std_sort v = [d1; d2; d3; d4].
Proof.
  intros H12 H23 H34 Hp. symmetry.
  apply (std_sort_spec v); [|done].
  repeat first [ apply Sorted_nil | apply Sorted_cons | apply HdRel_nil
               | apply HdRel_cons ]; done.
Qed.

End Sorting.

Lemma omap_length_le {A B : Type} (f : A → option B) (l : list A) :
  (length (omap f l) ≤ length l)%nat.
Proof.
  induction l as [|x l IH]; [done|]. cbn. destruct (f x); cbn; lia.
Qed.

Section MedianDepth.
Context {F Obs E : Type} `{Scalar F} `{Collaborators F E}.

Implicit Types (k : keyframe F Obs) (w : world F Obs E).

Lemma depth_loop (abs : bool) (slots : list (option landmark_ref)) (acc : list F) w :
  fold_each slots acc
    (push_depth abs (block13_row2 (pose_cw_ (self w)))
       (fnarrow (coeff23 (pose_cw_ (self w))))) w
  = (Returned
       (acc ++ omap (λ lm : option landmark_ref,
                       depth_along_z abs (self w) (ext w) <$> lm) slots),
     w).
Proof.
  revert acc. induction slots as [|lm slots IH]; intros acc.
  - cbn. by rewrite app_nil_r.
  - cbn [fold_each]. unfold mbind at 1, M_bind at 1.
    destruct lm as [l|]; run_method.
    + rewrite IH. by rewrite <- app_assoc.
    + by rewrite IH.
Qed.

(** [compute_median_depth] is [at] on the sorted depths of the non-empty
    slots. *)
Lemma compute_median_depth_unfold (abs : bool) w :
  compute_median_depth abs w
  = (at_ (std_sort (slot_depths abs w))
       (Z.to_nat (size_sub (Z.of_nat (length (std_sort (slot_depths abs w)))) 1 / 2)),
     w).
Proof.
  unfold compute_median_depth. run_method.
  rewrite depth_loop. done.
Qed.

(** [(size - 1) / 2] on [size_t], for a size that is not zero. *)
Lemma median_index (n : nat) :
  (0 < n)%nat → Z.of_nat n < 2 ^ 64 →
  Z.to_nat (size_sub (Z.of_nat n) 1 / 2) = ((n - 1) / 2)%nat.
Proof.
  intros Hpos Hsize. unfold size_sub. rewrite Z.mod_small by lia.
  replace (Z.of_nat n - 1) with (Z.of_nat (n - 1)) by lia.
  replace 2 with (Z.of_nat 2) by done.
  by rewrite <- Nat2Z.inj_div, Nat2Z.id.
Qed.

(** The erasure flags of the landmarks play no part: two collaborator
    states with the same landmark positions give the same outcome. *)
Lemma compute_median_depth_ignores_erasure (abs : bool) w (e' : E) :
  (∀ l, lm_get_pos_in_world e' l = lm_get_pos_in_world (ext w) l) →
  (compute_median_depth abs (mkWorld (self w) e' (trace w))).1
  = (compute_median_depth abs w).1.
Proof.
  intros Hpos. rewrite !compute_median_depth_unfold. cbn.
  assert (Hdepths : slot_depths abs (mkWorld (self w) e' (trace w)) = slot_depths abs w).
  { unfold slot_depths. cbn. apply list_omap_ext, Forall2_same_length_lookup_2; [done|].
    intros i lm1 lm2 H1 H2. assert (lm1 = lm2) as <- by congruence.
    destruct lm1 as [l|]; [|done]. cbn. unfold depth_along_z. by rewrite Hpos. }
  by rewrite Hdepths.
Qed.

(** With no depth at all the index wraps around and [at] throws. *)
Lemma median_index_empty : Z.to_nat (size_sub (Z.of_nat 0) 1 / 2) = Z.to_nat (2 ^ 63 - 1).
Proof. reflexivity. Qed.

End MedianDepth.

Section MedianProperties.
Context {F Obs E : Type} `{ScalarOrder F} `{Collaborators F E}.

Implicit Types (k : keyframe F Obs) (w : world F Obs E).

(** C4. When at least one landmark is included, that is when some slot is
    not empty, [compute_median_depth] returns, without changing anything,
    an element [d] of the depths computed for the non-empty slots: the
    depths are sorted in ascending order and [d] is the element at index
    [(count - 1) / 2] of the sorted sequence, the lower median and not a
    mean of two elements. The order of the slots does not matter, only the
    depths do; in particular four depths [d1 <= d2 <= d3 <= d4] in any slot
    order, such as 1, 2, 3, 4, give [d2]. *)
Theorem compute_median_depth_lower_median (abs : bool) w :
  Z.of_nat (length (landmarks_ (self w))) < 2 ^ 64 →
  slot_depths abs w ≠ [] →
  ∃ d,
    compute_median_depth abs w = (Returned d, w)
    ∧ Sorted fle (std_sort (slot_depths abs w))
    ∧ std_sort (slot_depths abs w) ≡ₚ slot_depths abs w
    ∧ std_sort (slot_depths abs w)
        !! ((length (slot_depths abs w) - 1) / 2)%nat = Some d
    ∧ d ∈ slot_depths abs w
    ∧ (∀ sorted, Sorted fle sorted → sorted ≡ₚ slot_depths abs w →
         lower_median sorted = Some d)
    ∧ (∀ d1 d2 d3 d4, fle d1 d2 → fle d2 d3 → fle d3 d4 →
         slot_depths abs w ≡ₚ [d1; d2; d3; d4] → d = d2).
Proof.
  intros Hsize Hne.
  destruct (std_sort_spec (slot_depths abs w)) as (Hsorted & Hperm & Hunique).
  set (depths := slot_depths abs w) in *.
  assert (Hlen : length (std_sort depths) = length depths) by by rewrite Hperm.
  assert (Hpos : (0 < length depths)%nat) by (destruct depths; [done | cbn; lia]).
  assert (Hbound : Z.of_nat (length depths) < 2 ^ 64).
  { subst depths. unfold slot_depths.
    pose proof (omap_length_le
      (λ lm : option landmark_ref, depth_along_z abs (self w) (ext w) <$> lm)
      (landmarks_ (self w))). lia. }
  destruct (at_returned (std_sort depths) ((length depths - 1) / 2)) as (d & Hd & Hat).
  { rewrite Hlen. apply Nat.Div0.div_lt_upper_bound. lia. }
  exists d. split_and!; try done.
  - rewrite compute_median_depth_unfold. fold depths.
    rewrite Hlen, median_index by done. by rewrite Hat.
  - rewrite <- Hperm. by eapply list_elem_of_lookup_2.
  - intros sorted Hs Hp. rewrite (Hunique sorted Hs Hp).
    unfold lower_median. by rewrite Hlen.
  - intros d1 d2 d3 d4 H12 H23 H34 Hp.
    rewrite (std_sort_four depths d1 d2 d3 d4 H12 H23 H34 Hp) in Hd.
    rewrite Hp in Hd. cbn in Hd. congruence.
Qed.

End MedianProperties.

(** ** Serialisation *)

Section Json.
Context {F Obs E J : Type} `{Scalar F} `{Collaborators F E}
  `{JsonConverters F Obs J}.

Implicit Types (k : keyframe F Obs) (w : world F Obs E).

Lemma landmark_id_loop (n i : nat) w :
  (i + n)%nat = length (landmarks_ (self w)) →
  fold_each (seq i n)
    (map (serialised_landmark_id (ext w)) (take i (landmarks_ (self w)))
     ++ replicate n (-1))
    (fill_landmark_id (self w)) w
  = (Returned (map (serialised_landmark_id (ext w)) (landmarks_ (self w))), w).
Proof.
  revert i. induction n as [|n IH]; intros i Hlen.
  - cbn. rewrite app_nil_r, take_ge by lia. done.
  - cbn [seq fold_each]. unfold mbind at 1, M_bind at 1.
    destruct (at_returned (landmarks_ (self w)) i ltac:(lia)) as (lm & Hlm & Hat).
    assert (Hnext : ∀ v, v = serialised_landmark_id (ext w) lm →
              map (serialised_landmark_id (ext w)) (take i (landmarks_ (self w)))
              ++ v :: replicate n (-1)
              = map (serialised_landmark_id (ext w)) (take (S i) (landmarks_ (self w)))
                ++ replicate n (-1)).
    { intros v ->. rewrite (take_S_r _ _ _ Hlm), map_app, <- app_assoc. done. }
    unfold fill_landmark_id at 1. run_method. rewrite Hat.
    destruct lm as [l|]; run_method.
    + destruct (lm_will_be_erased (ext w) l) eqn:Herased; run_method.
      * rewrite Hnext by (cbn; by rewrite Herased). apply IH. lia.
      * unfold at_put. rewrite decide_True.
        2: { rewrite length_app, length_map, length_take. cbn. lia. }
        rewrite insert_app_r_alt by (rewrite length_map, length_take; lia).
        rewrite length_map, length_take.
        replace (i - i `min` length (landmarks_ (self w)))%nat with 0%nat by lia.
        cbn [list_insert insert]. rewrite Hnext by (cbn; by rewrite Herased).
        apply IH. lia.
    + rewrite Hnext by done. apply IH. lia.
Qed.

(** [to_json] returns, changes nothing, and these are its landmark ids and
    its graph fields. *)
Lemma to_json_fields w :
  ∃ j,
    to_json w = (Returned j, w)
    ∧ j_lm_ids j = map (serialised_landmark_id (ext w)) (landmarks_ (self w))
    ∧ j_span_parent j
      = as_unsigned
          (match gn_get_spanning_parent (ext w) (id_ (self w)) with
           | Some p => p
           | None => -1
           end)
    ∧ j_span_children j = map as_int (gn_get_spanning_children (ext w) (id_ (self w)))
    ∧ j_loop_edges j = map as_int (gn_get_loop_edges (ext w) (id_ (self w)))
    ∧ j_n_keypts j = num_keypts_ (frm_obs_ (self w)).
Proof.
  assert (Hpush : ∀ (l : list keyframe_ref) (acc : list Z),
            foldl (λ ids child, ids ++ [as_int child]) acc l = acc ++ map as_int l).
  { induction l as [|x l IH]; intros acc; cbn; [by rewrite app_nil_r|].
    by rewrite IH, <- app_assoc. }
  unfold to_json. run_method. rewrite length_replicate.
  pose proof (landmark_id_loop (length (landmarks_ (self w))) 0 w eq_refl) as Hloop.
  rewrite take_0 in Hloop. cbn [map app] in Hloop.
  rewrite Hloop. run_method.
  eexists. split; [done|]. cbn. by rewrite !Hpush.
Qed.

(** The record never holds -1 as parent id: a node without spanning parent
    is written as 4294967295. *)
Lemma to_json_span_parent_of_root w :
  gn_get_spanning_parent (ext w) (id_ (self w)) = None →
  ∃ j, to_json w = (Returned j, w) ∧ j_span_parent j = 4294967295.
Proof.
  intros Hroot. destruct (to_json_fields w) as (j & Hrun & _ & Hparent & _).
  exists j. by rewrite Hparent, Hroot.
Qed.

Lemma to_json_span_parent_not_minus_one w j :
  to_json w = (Returned j, w) → j_span_parent j ≠ -1.
Proof.
  destruct (to_json_fields w) as (j' & Hrun & _ & Hparent & _).
  rewrite Hrun. intros [= <-]. rewrite Hparent. unfold as_unsigned.
  match goal with |- ?z mod _ ≠ _ => pose proof (Z.mod_pos_bound z (2 ^ 32)) end.
  lia.
Qed.

(** With landmark ids below 2^31, a slot is serialised as -1 exactly when
    it is empty or its landmark is being erased, and as the landmark's id
    otherwise. *)
Lemma serialised_landmark_id_small (e : E) (lm : option landmark_ref) :
  (∀ l, lm = Some l → 0 ≤ l < 2 ^ 31) →
  (serialised_landmark_id e lm = -1
   ↔ lm = None ∨ ∃ l, lm = Some l ∧ lm_will_be_erased e l = true)
  ∧ (∀ l, lm = Some l → lm_will_be_erased e l = false →
       serialised_landmark_id e lm = l).
Proof.
  intros Hsmall. destruct lm as [l|]; cbn.
  - specialize (Hsmall l eq_refl).
    destruct (lm_will_be_erased e l) eqn:Herased.
    + split; [split; [intros _; right; by exists l | done] | ].
      intros l' [= <-] ?. congruence.
    + rewrite as_int_small by lia. split.
      * split; [lia|]. intros [? | (l' & [= <-] & ?)]; congruence.
      * by intros l' [= <-] _.
  - split; [split; [by left | done] | done].
Qed.

End Json.

(** ** Concrete runs *)

(** The steps of erasing keyframe 1 of [Sim.demo]: landmark 10 survives the
    loss of one of its three observers, landmark 11 loses its only one,
    landmark 12 is passed over. *)
Example demo_erasure_trace :
  trace (prepare_for_erasing Sim.demo_world).2
  = [raise_will_be_erased;
     landmark_erase_observation 10; landmark_compute_descriptor 10;
     landmark_update_mean_normal_and_obs_scale_variance 10;
     landmark_erase_observation 11;
     graph_erase_all_connections; graph_recover_spanning_connections;
     map_db_replace_reference_keyframe (Some 0);
     map_db_erase_keyframe; bow_db_erase_keyframe].
Proof. reflexivity. Qed.

Lemma prepare_for_erasing_steps_in_order_witness :
  keyframe_eqb (id_ (self Sim.demo_world)) (map_origin_keyfrm_ (ext Sim.demo_world))
  = false
  ∧ cannot_be_erased_ (self Sim.demo_world) = false
  ∧ ∃ w',
      prepare_for_erasing Sim.demo_world = (Returned tt, w')
      ∧ erased_in_order Sim.demo_world w'
      ∧ (∀ w'', erased_in_order Sim.demo_world w'' → w'' = w')
      ∧ will_be_erased (self w') = true
      ∧ landmarks_ (self w') = landmarks_ (self Sim.demo_world).
Proof.
  split; [reflexivity|]. split; [reflexivity|].
  apply prepare_for_erasing_steps_in_order; reflexivity.
Defined.

Lemma prepare_for_erasing_refuses_origin_and_pinned_witness :
  (keyframe_eqb (id_ (self Sim.origin_world))
     (map_origin_keyfrm_ (ext Sim.origin_world)) = true
   ∨ cannot_be_erased_ (self Sim.origin_world) = true)
  ∧ prepare_for_erasing Sim.origin_world = (Returned tt, Sim.origin_world)
  ∧ ∀ n, repeated n prepare_for_erasing Sim.origin_world = Sim.origin_world.
Proof.
  split; [left; reflexivity|].
  apply prepare_for_erasing_refuses_origin_and_pinned. left; reflexivity.
Defined.

(** C2 fails as stated. Keyframe 1 of [Sim.demo] is erased once;
    its flag [will_be_erased_] is then set. A second call of
    [prepare_for_erasing] passes both guards and issues the whole protocol
    again: nine more steps. After an [update_landmarks] on the erased
    keyframe, which records it as observer of landmark 10 again, the
    second call also changes the state of the collaborators. *)
Lemma prepare_for_erasing_already_erased_counterexample :
  let w1 := (prepare_for_erasing Sim.demo_world).2 in
  let w2 := (update_landmarks w1).2 in
  will_be_erased (self w1) = true
  ∧ prepare_for_erasing w1 ≠ (Returned tt, w1)
  ∧ length (trace (prepare_for_erasing w1).2) = (length (trace w1) + 9)%nat
  ∧ will_be_erased (self w2) = true
  ∧ ext (prepare_for_erasing w2).2 ≠ ext w2.
Proof.
  split_and!.
  - reflexivity.
  - intros Heq. apply (f_equal (λ r, length (trace (snd r)))) in Heq.
    vm_compute in Heq. discriminate.
  - reflexivity.
  - reflexivity.
  - intros Heq. apply (f_equal (λ e, Sim.get_index_in_keyframe e 10 1)) in Heq.
    vm_compute in Heq. discriminate.
Qed.

(** [set_to_be_erased] on a pinned keyframe, with and without loop edge. *)
Example set_to_be_erased_runs :
  let pinned := mkWorld (set_not_to_be_erased Sim.demo_keyframe) Sim.demo [] in
  let looped :=
    mkWorld (set_not_to_be_erased Sim.demo_keyframe)
      (Sim.with_nodes [(1, Sim.mkNode [] (Some 0) [] [2])] Sim.demo) [] in
  cannot_be_erased_ (self (set_to_be_erased pinned).2) = false
  ∧ cannot_be_erased_ (self (set_to_be_erased looped).2) = true.
Proof. split; reflexivity. Qed.

(** Depths 1, 2, 3, 4 in any slot order, empty slots in between or not:
    the median depth is 2. *)
Lemma median_of_one_to_four {Obs E : Type} `{Collaborators Z E}
    (abs : bool) (w : world Z Obs E) :
  slot_depths abs w ≡ₚ [1; 2; 3; 4] →
  compute_median_depth abs w = (Returned 2, w).
Proof.
  intros Hp. rewrite compute_median_depth_unfold.
  by rewrite (std_sort_four (slot_depths abs w) 1 2 3 4).
Qed.

Lemma compute_median_depth_lower_median_witness :
  Z.of_nat (length (landmarks_ (self Sim.four_depths_world))) < 2 ^ 64
  ∧ slot_depths false Sim.four_depths_world = [3; 1; 4; 2]
  ∧ compute_median_depth false Sim.four_depths_world
    = (Returned 2, Sim.four_depths_world).
Proof.
  split; [cbn; lia|]. split; [reflexivity|].
  destruct (compute_median_depth_lower_median false Sim.four_depths_world)
    as (d & Hrun & _ & _ & _ & _ & _ & Hfour).
  - cbn; lia.
  - discriminate.
  - rewrite Hrun. f_equal. f_equal.
    apply (Hfour 1 2 3 4); try reflexivity.
    change (slot_depths false Sim.four_depths_world) with [3; 1; 4; 2].
    apply (Permutation_trans (l' := [1; 3; 4; 2])); [constructor|].
    apply perm_skip.
    apply (Permutation_trans (l' := [3; 2; 4])); [apply perm_skip; constructor|].
    constructor.
Defined.

(** C5, the code at the failing input: keyframe 2 holds landmark 12, which
    reports itself as being erased, at depth 1, and the valid landmark 10
    at depth 5. [get_valid_landmarks] and [get_num_tracked_landmarks] leave
    landmark 12 out, and the median of the depths of the valid landmarks
    is 5;
    [compute_median_depth] counts landmark 12 and returns 1. *)
Theorem compute_median_depth_counts_erasing_landmark :
  landmarks_ (self Sim.stale_world) = [Some 12; Some 10]
  ∧ lm_will_be_erased (ext Sim.stale_world) 12 = true
  ∧ lm_will_be_erased (ext Sim.stale_world) 10 = false
  ∧ get_valid_landmarks Sim.stale_world = (Returned [10], Sim.stale_world)
  ∧ get_num_tracked_landmarks 0 Sim.stale_world = (Returned 1%nat, Sim.stale_world)
  ∧ valid_slot_depths false Sim.stale_world = [5]
  ∧ lower_median (std_sort (valid_slot_depths false Sim.stale_world)) = Some 5
  ∧ slot_depths false Sim.stale_world = [1; 5]
  ∧ compute_median_depth false Sim.stale_world = (Returned 1, Sim.stale_world).
Proof. split_and!; reflexivity. Qed.

(** C9, the code at the failing input: the origin keyframe has no spanning
    parent, and [to_json] writes 4294967295 as its parent id, not -1. Its
    only slot holds the valid landmark 10 and is written as 10. *)
Theorem to_json_root_span_parent :
  gn_get_spanning_parent (ext Sim.origin_world) (id_ (self Sim.origin_world)) = None
  ∧ ∃ j,
      to_json Sim.origin_world = (Returned j, Sim.origin_world)
      ∧ j_span_parent j = 4294967295
      ∧ j_span_parent j ≠ -1
      ∧ j_lm_ids j = [10]
      ∧ j_span_children j = [1].
Proof.
  split; [reflexivity|].
  destruct (to_json_fields Sim.origin_world)
    as (j & Hrun & Hids & Hparent & Hchildren & _).
  exists j. rewrite Hids, Hparent, Hchildren.
  split_and!; try done.
Qed.

(** A slot whose landmark is being erased and an empty slot are both
    written as -1. *)
Example to_json_demo_lm_ids :
  j_lm_ids <$> (match to_json Sim.demo_world with
                | (Returned j, _) => Some j
                | _ => None
                end)
  = Some [10; -1; 11; -1].
Proof. reflexivity. Qed.

Lemma set_pose_cw_rigid_inverse_witness :
  orthonormal (block33 Sim.quarter_turn)
  ∧ affine Sim.quarter_turn
  ∧ get_pose_wc (set_pose_cw Sim.quarter_turn Sim.demo_keyframe)
    = mkMat44 (mkVec4 0 1 0 (-2)) (mkVec4 (-1) 0 0 1) (mkVec4 0 0 1 (-3))
        (mkVec4 0 0 0 1)
  ∧ mat44_mul (get_pose_wc (set_pose_cw Sim.quarter_turn Sim.demo_keyframe))
      Sim.quarter_turn = Identity44
  ∧ get_trans_wc (set_pose_cw Sim.quarter_turn Sim.demo_keyframe)
    = mkVec3 (-2) 1 (-3).
Proof.
  assert (Ho : orthonormal (block33 Sim.quarter_turn)) by (split; reflexivity).
  assert (Ha : affine Sim.quarter_turn) by reflexivity.
  destruct (set_pose_cw_rigid_inverse Sim.quarter_turn Sim.demo_keyframe Ho Ha)
    as (_ & _ & _ & _ & Hleft & _ & Htrans & _).
  split; [exact Ho|]. split; [exact Ha|]. split; [reflexivity|].
  split; [exact Hleft | exact Htrans].
Defined.

(** C7 fails as stated: the keyframe built from a frame that
    announces two keypoints and carries no landmark slot has no slot
    either. *)
Lemma keyframe_of_frame_counterexample :
  num_keypts_ (frm_obs_ (keyframe_of_frame 7 Sim.short_frame)) = 2%nat
  ∧ length (landmarks_ (keyframe_of_frame 7 Sim.short_frame)) = 0%nat
  ∧ ¬ slots_match (keyframe_of_frame 7 Sim.short_frame).
Proof. split_and!; try reflexivity. discriminate. Qed.

(** C8 fails as stated: in the keyframe built from a frame that announces
    two keypoints and carries no landmark slot, index 0 is below the
    observation count, and [add_landmark], [erase_landmark_with_index] and
    [get_landmark] all throw [std::out_of_range] on it. *)
Lemma slot_access_short_frame_counterexample :
  (0 < num_keypts_ (frm_obs_ (keyframe_of_frame 7 Sim.short_frame)))%nat
  ∧ add_landmark (Some 10) 0 (keyframe_of_frame 7 Sim.short_frame)
    = Thrown out_of_range
  ∧ erase_landmark_with_index 0 (keyframe_of_frame 7 Sim.short_frame)
    = Thrown out_of_range
  ∧ get_landmark 0 (keyframe_of_frame 7 Sim.short_frame) = Thrown out_of_range.
Proof. split_and!; [cbn; lia | reflexivity..]. Qed.

Lemma slot_count_invariant_witness :
  slots_match Sim.demo_keyframe
  ∧ add_landmark (Some 13) 3 Sim.demo_keyframe
    = Returned (with_landmarks [Some 10; Some 12; Some 11; Some 13] Sim.demo_keyframe)
  ∧ slots_match (with_landmarks [Some 10; Some 12; Some 11; Some 13] Sim.demo_keyframe)
  ∧ slots_match (self (erase_landmark 10 Sim.demo_world).2)
  ∧ slots_match (self (update_landmarks Sim.demo_world).2).
Proof.
  assert (Hdemo : slots_match Sim.demo_keyframe) by reflexivity.
  destruct (@slot_count_invariant Z unit Sim.state _ _)
    as (_ & _ & Hadd & _ & Herase & Hupdate).
  split; [exact Hdemo|]. split; [reflexivity|]. split_and!.
  - exact (Hadd Sim.demo_keyframe (Some 13) 3%nat _ Hdemo eq_refl).
  - exact (Herase Sim.demo_world 10 Hdemo).
  - exact (Hupdate Sim.demo_world Hdemo).
Defined.

Lemma slot_access_within_observation_count_witness :
  slots_match Sim.demo_keyframe
  ∧ (1 < num_keypts_ (frm_obs_ Sim.demo_keyframe))%nat
  ∧ (∃ k', add_landmark (Some 13) 1 Sim.demo_keyframe = Returned k'
           ∧ landmarks_ k' = [Some 10; Some 13; Some 11; None])
  ∧ (∃ k', erase_landmark_with_index 1 Sim.demo_keyframe = Returned k'
           ∧ landmarks_ k' = [Some 10; None; Some 11; None])
  ∧ get_landmark 4 Sim.demo_keyframe = Thrown out_of_range.
Proof.
  assert (Hdemo : slots_match Sim.demo_keyframe) by reflexivity.
  assert (Hidx : (1 < num_keypts_ (frm_obs_ Sim.demo_keyframe))%nat) by (cbn; lia).
  destruct (slot_access_within_observation_count Sim.demo_keyframe (Some 13) 1
              Hdemo Hidx)
    as ((k1 & Hadd & Hslots1 & _) & (k2 & Herase & Hslots2 & _) & _ & _ & Hout).
  split; [exact Hdemo|]. split; [exact Hidx|]. split_and!.
  - exists k1. split; [exact Hadd | exact Hslots1].
  - exists k2. split; [exact Herase | exact Hslots2].
  - apply (Hout 4%nat). cbn; lia.
Defined.

Lemma erase_landmark_clears_reported_slot_witness :
  lm_get_index_in_keyframe (ext Sim.reassigned_world) 10
    (id_ (self Sim.reassigned_world)) = 0
  ∧ landmarks_ (self Sim.reassigned_world) = [Some 11; Some 12; Some 11; None]
  ∧ landmarks_ (self (erase_landmark 10 Sim.reassigned_world).2)
    = [None; Some 12; Some 11; None]
  ∧ landmarks_ (self (erase_landmark 10 Sim.reassigned_world).2) !! 2%nat
    = Some (Some 11).
Proof.
  destruct (erase_landmark_clears_reported_slot 10 Sim.reassigned_world)
    as (_ & Hclear & Hframe & _).
  - cbn; lia.
  - split; [reflexivity|]. split; [reflexivity|]. split.
    + destruct Hclear as [Hrun _]; [cbn; lia | cbn; lia |].
      rewrite Hrun. reflexivity.
    + transitivity (landmarks_ (self Sim.reassigned_world) !! 2%nat);
        [apply (Hframe 2%nat); cbn; lia | reflexivity].
Defined.

(** C10 fails as stated: landmark 10 reports index 9 in a keyframe of four
    slots; the index is not negative, and [erase_landmark] throws
    [std::out_of_range] and clears no slot. *)
Lemma erase_landmark_misrecorded_counterexample :
  lm_get_index_in_keyframe (ext Cases.misrecorded_world) 10
    (id_ (self Cases.misrecorded_world)) = 9
  ∧ landmarks_ (self Cases.misrecorded_world) = [Some 10; Some 12; Some 11; None]
  ∧ erase_landmark 10 Cases.misrecorded_world
    = (Thrown out_of_range, Cases.misrecorded_world)
  ∧ landmarks_ (self (erase_landmark 10 Cases.misrecorded_world).2)
    = [Some 10; Some 12; Some 11; None].
Proof. split_and!; reflexivity. Qed.

(** ** Further properties: the pose cache *)

Section PoseCache.
Context {F Obs E : Type} `{Scalar F} `{Collaborators F E}.

Implicit Types (k : keyframe F Obs) (w : world F Obs E).

Lemma set_pose_cw_coherent (T : Mat44 F) k : pose_coherent (set_pose_cw T k).
Proof. split; reflexivity. Qed.

(** What [prepare_for_erasing] leaves of the keyframe: everything, but for
    the erasure flag when the call passes the guards. *)
Lemma prepare_for_erasing_self w :
  self (prepare_for_erasing w).2
  = if guarded w then self w else with_will_be_erased true (self w).
Proof.
  unfold guarded.
  destruct (keyframe_eqb _ _) eqn:Horigin; cbn [orb].
  - by rewrite prepare_for_erasing_guarded by by left.
  - destruct (cannot_be_erased_ (self w)) eqn:Hpinned.
    + by rewrite prepare_for_erasing_guarded by by right.
    + destruct (prepare_for_erasing_unguarded w Horigin Hpinned)
        as (w' & -> & t & e2 & _ & Hself & _). done.
Qed.

Lemma set_to_be_erased_step w :
  set_to_be_erased w
  = (Returned tt,
     if gn_has_loop_edge (ext w) (id_ (self w)) then w
     else mkWorld (with_cannot_be_erased false (self w)) (ext w) (trace w)).
Proof.
  unfold set_to_be_erased. run_method. by destruct (gn_has_loop_edge _ _).
Qed.

(** X1. The pose cache is never stale: both constructors and every
    [set_pose_cw], whatever the matrix and whatever the arithmetic, leave
    [pose_wc_] and [trans_wc_] as computed from the stored [pose_cw_], and
    no other method of the keyframe breaks this. *)
Theorem pose_cache_never_stale :
  (∀ id timestamp pose_cw camera orb (frm_obs : frame_observation Obs),
     pose_coherent (F := F)
       (keyframe_of_fields id timestamp pose_cw camera orb frm_obs))
  ∧ (∀ id (frm : frame F Obs), pose_coherent (keyframe_of_frame id frm))
  ∧ (∀ T k, pose_coherent (set_pose_cw T k))
  ∧ (∀ k lm idx k',
       pose_coherent k → add_landmark lm idx k = Returned k' → pose_coherent k')
  ∧ (∀ k idx k',
       pose_coherent k → erase_landmark_with_index idx k = Returned k' →
       pose_coherent k')
  ∧ (∀ k, pose_coherent k → pose_coherent (set_not_to_be_erased k))
  ∧ (∀ w, pose_coherent (self w) →
       (∀ lm, pose_coherent (self (erase_landmark lm w).2))
       ∧ pose_coherent (self (update_landmarks w).2)
       ∧ pose_coherent (self (set_to_be_erased w).2)
       ∧ pose_coherent (self (prepare_for_erasing w).2)).
Proof.
  split_and!.
  - intros. apply set_pose_cw_coherent.
  - intros. apply set_pose_cw_coherent.
  - intros. apply set_pose_cw_coherent.
  - intros k lm idx k' Hk. unfold add_landmark.
    destruct (at_put _ _ _); [|done]. by intros [= <-].
  - intros k idx k' Hk. unfold erase_landmark_with_index.
    destruct (at_put _ _ _); [|done]. by intros [= <-].
  - done.
  - intros w Hw. split_and!.
    + intros lm. rewrite erase_landmark_cases. by repeat case_decide.
    + by rewrite update_landmarks_self.
    + rewrite set_to_be_erased_step. by destruct (gn_has_loop_edge _ _).
    + rewrite prepare_for_erasing_self. by destruct (guarded w).
Qed.

End PoseCache.

Section PoseRoundTrip.
Context {F Obs : Type} `{ScalarRing F}.

Add Ring scalar_ring_round_trip : scalar_ring.

Ltac by_columns ra rb rc ta tb tc :=
  match type of ra with
  | ?ea = _ =>
    match type of rb with
    | ?eb = _ =>
      match type of rc with
      | ?ec = _ =>
        transitivity (fadd (fadd (fmul ea ta) (fmul eb tb)) (fmul ec tc));
        [ring | rewrite ra, rb, rc; ring]
      end
    end
  end.

(** X2. In exact arithmetic, for a transform [T] with orthonormal rotation
    block and last row (0,0,0,1): the inverse pose that [set_pose_cw(T)]
    caches is again such a transform, and storing it as the pose gives [T]
    back as the cached inverse (and the original translation as camera
    centre). *)
Theorem set_pose_cw_round_trip (T : Mat44 F) (k : keyframe F Obs) :
  orthonormal (block33 T) → affine T →
  let inverse := get_pose_wc (set_pose_cw T k) in
  orthonormal (block33 inverse)
  ∧ affine inverse
  ∧ get_pose_wc (set_pose_cw inverse (set_pose_cw T k)) = T
  ∧ get_trans_wc (set_pose_cw inverse (set_pose_cw T k)) = block31 T.
Proof.
  destruct T as [[a00 a01 a02 a03] [a10 a11 a12 a13] [a20 a21 a22 a23] r3].
  unfold orthonormal, affine; cbn. intros [Hc Hr] ->.
  split_and!; try done.
  all: unfold mat33_mul, Identity33, dot in Hc, Hr; cbn in Hc, Hr.
  all: injection Hc as c00 c01 c02 c10 c11 c12 c20 c21 c22.
  all: injection Hr as r00 r01 r02 r10 r11 r12 r20 r21 r22.
  all: cbv -[fadd fmul fopp fone fzero].
  - repeat f_equal.
    + by_columns r00 r01 r02 a03 a13 a23.
    + by_columns r10 r11 r12 a03 a13 a23.
    + by_columns r20 r21 r22 a03 a13 a23.
  - f_equal.
    + by_columns r00 r01 r02 a03 a13 a23.
    + by_columns r10 r11 r12 a03 a13 a23.
    + by_columns r20 r21 r22 a03 a13 a23.
Qed.

End PoseRoundTrip.

Lemma set_pose_cw_round_trip_witness :
  orthonormal (block33 Sim.quarter_turn)
  ∧ affine Sim.quarter_turn
  ∧ get_pose_wc
      (set_pose_cw (get_pose_wc (set_pose_cw Sim.quarter_turn Sim.demo_keyframe))
         (set_pose_cw Sim.quarter_turn Sim.demo_keyframe))
    = Sim.quarter_turn.
Proof.
  assert (Ho : orthonormal (block33 Sim.quarter_turn)) by (split; reflexivity).
  assert (Ha : affine Sim.quarter_turn) by reflexivity.
  destruct (set_pose_cw_round_trip Sim.quarter_turn Sim.demo_keyframe Ho Ha)
    as (_ & _ & Hback & _).
  split; [exact Ho|]. split; [exact Ha | exact Hback].
Defined.

(** ** Further properties: median depth *)

Section MedianEdge.
Context {F Obs E : Type} `{Scalar F} `{Collaborators F E}.

Implicit Types (k : keyframe F Obs) (w : world F Obs E).

Lemma std_sort_length (v : list F) : length (std_sort v) = length v.
Proof. unfold std_sort. by rewrite merge_sort_Permutation. Qed.

Lemma slot_depths_nil (abs : bool) w :
  slot_depths abs w = [] ↔ Forall (λ lm, lm = None) (landmarks_ (self w)).
Proof.
  unfold slot_depths. induction (landmarks_ (self w)) as [|lm slots IH]; cbn.
  - split; [constructor | done].
  - destruct lm as [l|]; cbn.
    + split; [done | by inversion 1].
    + rewrite IH. split; [by constructor | by inversion 1].
Qed.

(** X3. [compute_median_depth] never changes anything, and it throws
    [std::out_of_range] exactly when every landmark slot is empty (the
    index [(0 - 1) / 2] wraps around on [size_t]); with a landmark in some
    slot it returns. *)
Theorem compute_median_depth_throws_iff_no_landmark (abs : bool) w :
  Z.of_nat (length (landmarks_ (self w))) < 2 ^ 64 →
  (compute_median_depth abs w).2 = w
  ∧ (compute_median_depth abs w = (Thrown out_of_range, w)
     ↔ Forall (λ lm, lm = None) (landmarks_ (self w)))
  ∧ ((∃ l, Some l ∈ landmarks_ (self w))
     ↔ ∃ d, compute_median_depth abs w = (Returned d, w)).
Proof.
  intros Hsize. rewrite compute_median_depth_unfold, std_sort_length.
  rewrite <- (slot_depths_nil abs w).
  pose proof (omap_length_le
    (λ lm : option landmark_ref, depth_along_z abs (self w) (ext w) <$> lm)
    (landmarks_ (self w))) as Hle.
  fold (slot_depths abs w) in Hle.
  assert (Hsome : (∃ l, Some l ∈ landmarks_ (self w)) ↔ slot_depths abs w ≠ []).
  { rewrite (slot_depths_nil abs w), Forall_forall. split.
    - intros [l Hl] Hnone. by specialize (Hnone _ Hl).
    - intros Hnot. destruct (decide (Forall (λ lm, lm = None) (landmarks_ (self w))))
        as [Hall | Hex]; [by rewrite Forall_forall in Hall|].
      apply not_Forall_Exists in Hex; [|apply _].
      apply Exists_exists in Hex as ([l|] & Hin & Hl); [by exists l | by destruct Hl]. }
  rewrite Hsome. clear Hsome.
  destruct (slot_depths abs w) as [|d0 depths] eqn:Hdepths.
  - assert (Hthrown : at_ (std_sort (@nil F))
              (Z.to_nat (size_sub (Z.of_nat (length (@nil F))) 1 / 2))
            = Thrown out_of_range) by done.
    rewrite Hthrown. split_and!; [done | done |].
    split; [by intros [] | by intros [d [=]]].
  - assert (Hpos : (0 < length (d0 :: depths))%nat) by (cbn; lia).
    rewrite median_index by (done || lia).
    destruct (at_returned (std_sort (d0 :: depths)) ((length (d0 :: depths) - 1) / 2))
      as (d & _ & Hat).
    { rewrite std_sort_length. apply Nat.Div0.div_lt_upper_bound. lia. }
    rewrite Hat. split_and!; [done | split; done |].
    split; [by exists d | done].
Qed.

End MedianEdge.

Section MedianSplit.
Context {F Obs E : Type} `{ScalarOrder F} `{Collaborators F E}.

Implicit Types (k : keyframe F Obs) (w : world F Obs E).

(** X4. The depth [compute_median_depth] returns splits the depths of the
    non-empty slots: [(n - 1) / 2] of them are at most it, [n / 2] of them
    are at least it, and it is the one left. Any keyframe whose non-empty
    slots give the same depths in another order, with other empty slots,
    has the same median depth. *)
Theorem compute_median_depth_splits (abs : bool) w (d : F) :
  Z.of_nat (length (landmarks_ (self w))) < 2 ^ 64 →
  compute_median_depth abs w = (Returned d, w) →
  (∃ below above,
     slot_depths abs w ≡ₚ below ++ d :: above
     ∧ Forall (λ x, fle x d) below
     ∧ Forall (fle d) above
     ∧ length below = ((length (slot_depths abs w) - 1) / 2)%nat
     ∧ length above = (length (slot_depths abs w) / 2)%nat)
  ∧ (∀ w2 : world F Obs E,
       slot_depths abs w2 ≡ₚ slot_depths abs w →
       compute_median_depth abs w2 = (Returned d, w2)).
Proof.
  intros Hsize. rewrite compute_median_depth_unfold, std_sort_length.
  destruct (std_sort_spec (slot_depths abs w)) as (Hsorted & Hperm & Hunique).
  set (depths := slot_depths abs w) in *.
  pose proof (std_sort_length depths) as Hlen.
  assert (Hbound : Z.of_nat (length depths) < 2 ^ 64).
  { pose proof (omap_length_le
      (λ lm : option landmark_ref, depth_along_z abs (self w) (ext w) <$> lm)
      (landmarks_ (self w))) as Hle. fold (slot_depths abs w) in Hle.
    subst depths. lia. }
  destruct depths as [|d0 rest] eqn:Hdepths.
  { cbn. unfold std_sort; cbn. done. }
  rewrite <- Hdepths in *. assert (Hpos : (0 < length depths)%nat).
  { rewrite Hdepths. cbn. lia. }
  rewrite median_index by done.
  set (m := ((length depths - 1) / 2)%nat) in *.
  unfold at_. destruct (std_sort depths !! m) as [x|] eqn:Hm; [|done].
  intros [= ->]. split.
  - exists (take m (std_sort depths)), (drop (S m) (std_sort depths)).
    assert (Hm_lt : (m < length depths)%nat).
    { subst m. apply Nat.Div0.div_lt_upper_bound. lia. }
    assert (HSS : StronglySorted fle (take m (std_sort depths) ++ d :: drop (S m) (std_sort depths))).
    { rewrite take_drop_middle by done.
      apply Sorted_StronglySorted; [|done]. intros a b c. apply fle_trans. }
    split_and!.
    + by rewrite take_drop_middle.
    + apply Forall_forall. intros x Hx.
      apply (StronglySorted_app_1_elem_of fle _ _ x d HSS Hx). by left.
    + apply StronglySorted_app_1_r in HSS. by inversion HSS.
    + rewrite length_take, Hlen. lia.
    + rewrite length_drop, Hlen. subst m.
      pose proof (Nat.div_mod_eq (length depths - 1) 2) as Hdiv1.
      pose proof (Nat.div_mod_eq (length depths) 2) as Hdiv2.
      pose proof (Nat.mod_upper_bound (length depths - 1) 2 ltac:(lia)) as Hmod1.
      pose proof (Nat.mod_upper_bound (length depths) 2 ltac:(lia)) as Hmod2.
      lia.
  - intros w2 Hp. rewrite compute_median_depth_unfold, std_sort_length.
    assert (Hsame : std_sort (slot_depths abs w2) = std_sort depths).
    { symmetry. apply (std_sort_spec (slot_depths abs w2)).
      - done.
      - by rewrite Hperm, Hp. }
    rewrite Hsame, Hp.
    destruct (decide (Z.of_nat (length depths) < 2 ^ 64)); [|done].
    rewrite median_index by done. fold m. unfold at_. by rewrite Hm.
Qed.

End MedianSplit.

(** ** Further properties: the landmark queries *)

Section LandmarkQueries.
Context {F Obs E : Type} `{Scalar F} `{Collaborators F E}.

Implicit Types (k : keyframe F Obs) (w : world F Obs E).

Lemma collect_valid_loop (slots : list (option landmark_ref))
    (acc : list landmark_ref) w :
  ∃ vs,
    fold_each slots acc collect_valid w = (Returned vs, w)
    ∧ (NoDup acc → NoDup vs)
    ∧ ∀ l, l ∈ vs ↔ l ∈ acc ∨ (Some l ∈ slots ∧ lm_will_be_erased (ext w) l = false).
Proof.
  revert acc. induction slots as [|lm slots IH]; intros acc.
  - exists acc. split_and!; [done | done |]. intros l.
    split; [tauto|]. intros [? | [Hnil _]]; [done|]. by apply elem_of_nil in Hnil.
  - cbn [fold_each]. unfold mbind at 1, M_bind at 1.
    destruct lm as [l0|]; cbn [collect_valid]; run_method.
    + destruct (lm_will_be_erased (ext w) l0) eqn:Herased; run_method.
      * destruct (IH acc) as (vs & -> & Hnd & Hin). exists vs.
        split_and!; [done | done |]. intros l. rewrite Hin, elem_of_cons.
        split; [tauto|]. intros [? | [[Heq | ?] ?]]; [tauto | | tauto].
        injection Heq as ->. congruence.
      * destruct (decide (l0 ∈ acc)) as [Hl0 | Hl0]; run_method.
        -- destruct (IH acc) as (vs & -> & Hnd & Hin). exists vs.
           split_and!; [done | done |]. intros l. rewrite Hin, elem_of_cons.
           split; [tauto|]. intros [? | [[Heq | ?] ?]]; [tauto | | tauto].
           injection Heq as ->. tauto.
        -- destruct (IH (acc ++ [l0])) as (vs & -> & Hnd & Hin). exists vs.
           split_and!; [done | |].
           ++ intros Hacc. apply Hnd. apply NoDup_app. split_and!; [done | | ].
              ** intros x Hx. rewrite list_elem_of_singleton. by intros ->.
              ** apply NoDup_singleton.
           ++ intros l. rewrite Hin, elem_of_app, list_elem_of_singleton, elem_of_cons.
              split.
              ** intros [[? | ->] | [? ?]]; [tauto | | tauto].
                 right. split; [by left | done].
              ** intros [? | [[Heq | ?] ?]]; [tauto | | tauto].
                 injection Heq as ->. tauto.
    + destruct (IH acc) as (vs & -> & Hnd & Hin). exists vs.
      split_and!; [done | done |]. intros l. rewrite Hin, elem_of_cons.
      split; [tauto|]. intros [? | [[[=] | ?] ?]]; tauto.
Qed.

(** X5. [get_valid_landmarks] changes nothing and returns the set of valid
    landmarks of the keyframe: a landmark is in the result exactly when
    some slot holds it and it does not report itself as being erased, and
    it is there once however many slots hold it. *)
Theorem get_valid_landmarks_is_the_valid_set w :
  ∃ valid_landmarks,
    get_valid_landmarks w = (Returned valid_landmarks, w)
    ∧ NoDup valid_landmarks
    ∧ ∀ l, l ∈ valid_landmarks
           ↔ Some l ∈ landmarks_ (self w) ∧ lm_will_be_erased (ext w) l = false.
Proof.
  destruct (collect_valid_loop (landmarks_ (self w)) [] w) as (vs & Hrun & Hnd & Hin).
  exists vs. split_and!.
  - unfold get_valid_landmarks. run_method. exact Hrun.
  - apply Hnd. constructor.
  - intros l. rewrite Hin. split; [|tauto].
    intros [Hnil | ?]; [|done]. by apply elem_of_nil in Hnil.
Qed.

Lemma count_tracked_loop (thr : nat) (slots : list (option landmark_ref)) (n : nat) w :
  fold_each slots n (count_tracked thr) w
  = (Returned (n + tracked_count thr (ext w) slots)%nat, w).
Proof.
  unfold tracked_count. revert n. induction slots as [|lm slots IH]; intros n.
  - cbn. by rewrite Nat.add_0_r.
  - cbn [fold_each]. unfold mbind at 1, M_bind at 1.
    rewrite filter_cons. destruct lm as [l|]; cbn [count_tracked tracked_slot]; run_method.
    + destruct (lm_will_be_erased (ext w) l); run_method.
      * rewrite decide_False by done. apply IH.
      * destruct (decide (thr ≤ _)%nat) as [Hthr | Hthr]; run_method.
        -- rewrite bool_decide_true, decide_True by done. rewrite IH. cbn.
           repeat f_equal. lia.
        -- rewrite bool_decide_false, decide_False by done. apply IH.
    + rewrite decide_False by done. apply IH.
Qed.

Lemma count_valid_loop (slots : list (option landmark_ref)) (n : nat) w :
  fold_each slots n count_valid w
  = (Returned (n + tracked_count 0 (ext w) slots)%nat, w).
Proof.
  unfold tracked_count. revert n. induction slots as [|lm slots IH]; intros n.
  - cbn. by rewrite Nat.add_0_r.
  - cbn [fold_each]. unfold mbind at 1, M_bind at 1.
    rewrite filter_cons. destruct lm as [l|]; cbn [count_valid tracked_slot]; run_method.
    + destruct (lm_will_be_erased (ext w) l); run_method.
      * rewrite decide_False by done. apply IH.
      * rewrite bool_decide_true, decide_True by (done || lia). rewrite IH. cbn.
        repeat f_equal. lia.
    + rewrite decide_False by done. apply IH.
Qed.

Lemma get_num_tracked_landmarks_count (thr : nat) w :
  get_num_tracked_landmarks thr w
  = (Returned (tracked_count thr (ext w) (landmarks_ (self w))), w).
Proof.
  unfold get_num_tracked_landmarks. run_method.
  destruct (decide (0 < thr)%nat) as [Hthr | Hthr].
  - exact (count_tracked_loop thr (landmarks_ (self w)) 0 w).
  - replace thr with 0%nat by lia.
    exact (count_valid_loop (landmarks_ (self w)) 0 w).
Qed.

Lemma tracked_count_antitone (thr thr' : nat) (e : E) slots :
  (thr ≤ thr')%nat → (tracked_count thr' e slots ≤ tracked_count thr e slots)%nat.
Proof.
  intros Hle. unfold tracked_count. induction slots as [|lm slots IH]; [done|].
  rewrite !filter_cons.
  assert (Himp : tracked_slot thr' e lm = true → tracked_slot thr e lm = true).
  { destruct lm as [l|]; cbn; [|done].
    rewrite !andb_true_iff, !bool_decide_eq_true. intros [? ?]. split; [done | lia]. }
  repeat case_decide; cbn; try lia. by destruct Himp.
Qed.

(** X6. [get_num_tracked_landmarks] changes nothing and returns the number
    of slots whose landmark is valid and has at least [min_num_obs_thr]
    observations; with threshold 0 every valid slot counts, whatever its
    landmark's observations. The count never exceeds the number of slots,
    so the [unsigned int] counter cannot overflow; it does not grow when
    the threshold does; and with threshold 0 it is at least the size of
    the set [get_valid_landmarks] returns, a landmark held by two slots
    being counted twice. *)
Theorem get_num_tracked_landmarks_counts_slots (min_num_obs_thr : nat) w :
  ∃ n,
    get_num_tracked_landmarks min_num_obs_thr w = (Returned n, w)
    ∧ n = length (filter (λ lm, tracked_slot min_num_obs_thr (ext w) lm = true)
                    (landmarks_ (self w)))
    ∧ (n ≤ length (landmarks_ (self w)))%nat
    ∧ (∀ lower n', (lower ≤ min_num_obs_thr)%nat →
         get_num_tracked_landmarks lower w = (Returned n', w) → (n ≤ n')%nat)
    ∧ (∀ n0 valid_landmarks,
         get_num_tracked_landmarks 0 w = (Returned n0, w) →
         get_valid_landmarks w = (Returned valid_landmarks, w) →
         n0 = length (filter (λ lm, valid_slot (ext w) lm = true) (landmarks_ (self w)))
         ∧ (length valid_landmarks ≤ n0)%nat).
Proof.
  exists (tracked_count min_num_obs_thr (ext w) (landmarks_ (self w))).
  split_and!.
  - apply get_num_tracked_landmarks_count.
  - done.
  - apply length_filter.
  - intros lower n' Hlower. rewrite get_num_tracked_landmarks_count.
    intros [= <-]. by apply tracked_count_antitone.
  - intros n0 vs. rewrite get_num_tracked_landmarks_count. intros [= <-] Hvalid.
    destruct (collect_valid_loop (landmarks_ (self w)) [] w) as (vs' & Hrun & Hnd & Hin).
    assert (vs' = vs) as ->.
    { unfold get_valid_landmarks in Hvalid. revert Hvalid. run_method.
      intros Hvalid. cbv zeta in Hrun.
      change (fold_each (landmarks_ (self w)) [] collect_valid w)
        with (fold_each (landmarks_ (self w)) []
               (λ valid_landmarks lm,
                  match lm with
                  | None => mret valid_landmarks
                  | Some l =>
                      erased ← observe (λ e, lm_will_be_erased e l);
                      if erased : bool then mret valid_landmarks
                      else if decide (l ∈ valid_landmarks) then mret valid_landmarks
                      else mret (valid_landmarks ++ [l])
                  end) w) in Hrun.
      revert Hrun. run_method. congruence. }
    assert (Hsame : ∀ lm, tracked_slot 0 (ext w) lm = valid_slot (ext w) lm).
    { intros [l|]; cbn; [|done]. rewrite bool_decide_true by lia. apply andb_true_r. }
    unfold tracked_count. split.
    + f_equal. apply list_filter_iff. intros lm. by rewrite Hsame.
    + rewrite <- (length_fmap Some vs).
      apply submseteq_length, NoDup_submseteq.
      * apply (NoDup_fmap_2 _). apply Hnd. constructor.
      * intros lm. rewrite list_elem_of_fmap. intros (l & -> & Hl).
        apply Hin in Hl as [Hl | [Hl Herased]]; [by apply elem_of_nil in Hl|].
        apply list_elem_of_filter. split; [|done].
        cbn. by rewrite Herased.
Qed.

End LandmarkQueries.

(** ** Further properties: [update_landmarks] *)

Section UpdateLandmarks.
Context {F Obs E : Type} `{Scalar F} `{Collaborators F E}.

Implicit Types (k : keyframe F Obs) (w : world F Obs E).

Lemma update_landmarks_loop w :
  update_landmarks w
  = for_each (seq 0 (length (landmarks_ (self w)))) (refresh_slot (id_ (self w))) w.
Proof. unfold update_landmarks. by run_method. Qed.

(** One turn of the loop on slot [i] holding [lm]. *)
Lemma refresh_slot_step (this : keyframe_ref) (i : nat) (lm : option landmark_ref) w :
  landmarks_ (self w) !! i = Some lm →
  refresh_slot this i w
  = (Returned tt,
     match lm with
     | Some l =>
         if lm_will_be_erased (ext w) l then w
         else mkWorld (self w) (refreshed this l i (ext w))
                (trace w ++ [landmark_add_observation l i;
                             landmark_update_mean_normal_and_obs_scale_variance l;
                             landmark_compute_descriptor l])
     | None => w
     end).
Proof.
  intros Hlm. unfold refresh_slot, at_. run_method. rewrite Hlm.
  destruct lm as [l|]; run_method; [|done].
  destruct (lm_will_be_erased (ext w) l); run_method; [done|].
  unfold refreshed. by rewrite <- !app_assoc.
Qed.

Lemma refresh_loop_stable (this : keyframe_ref) (e0 : E) (n i : nat) w :
  refresh_keeps_flags this →
  (i + n)%nat = length (landmarks_ (self w)) →
  (∀ l, lm_will_be_erased (ext w) l = lm_will_be_erased e0 l) →
  for_each (seq i n) (refresh_slot this) w
  = (Returned tt,
     mkWorld (self w)
       (refresh_all this e0 i (drop i (landmarks_ (self w))) (ext w))
       (trace w ++ refresh_steps e0 i (drop i (landmarks_ (self w))))).
Proof.
  intros Hstable. revert i w. induction n as [|n IH]; intros i w Hlen Hflags.
  - rewrite drop_ge by lia. cbn. rewrite app_nil_r. by destruct w.
  - destruct (lookup_lt_is_Some_2 (landmarks_ (self w)) i ltac:(lia)) as [lm Hlm].
    rewrite (drop_S _ _ _ Hlm). cbn [seq for_each refresh_steps refresh_all].
    unfold mbind at 1, M_bind at 1. rewrite (refresh_slot_step this i lm w Hlm).
    destruct lm as [l|].
    + rewrite <- (Hflags l). destruct (lm_will_be_erased (ext w) l) eqn:Herased.
      * rewrite IH by (done || lia). done.
      * rewrite IH; cbn [self ext trace].
        -- by rewrite <- app_assoc.
        -- lia.
        -- intros l'. by rewrite Hstable.
    + rewrite IH by (done || lia). done.
Qed.

Lemma refresh_steps_invalid (e : E) (i : nat) slots :
  Forall (λ lm, valid_slot e lm = false) slots → refresh_steps e i slots = [].
Proof.
  intros Hall. revert i. induction Hall as [|lm slots Hlm _ IH]; intros i; [done|].
  cbn. rewrite IH, app_nil_r. destruct lm as [l|]; [|done].
  cbn in Hlm. by destruct (lm_will_be_erased e l).
Qed.

Lemma refresh_all_invalid (this : keyframe_ref) (e0 e : E) (i : nat) slots :
  Forall (λ lm, valid_slot e0 lm = false) slots → refresh_all this e0 i slots e = e.
Proof.
  intros Hall. revert i. induction Hall as [|lm slots Hlm _ IH]; intros i; [done|].
  cbn. destruct lm as [l|]; [|by rewrite IH].
  cbn in Hlm. destruct (lm_will_be_erased e0 l); [by rewrite IH | done].
Qed.

Lemma refresh_steps_length (e : E) (i : nat) slots :
  length (refresh_steps e i slots)
  = (3 * length (filter (λ lm, valid_slot e lm = true) slots))%nat.
Proof.
  revert i. induction slots as [|lm slots IH]; intros i; [done|].
  cbn [refresh_steps]. rewrite length_app, IH, filter_cons.
  destruct lm as [l|]; cbn; [|by rewrite decide_False].
  destruct (lm_will_be_erased e l); cbn.
  - by rewrite decide_False.
  - rewrite decide_True by done. cbn. lia.
Qed.

(** X7. When the three landmark calls it makes do not change erasure
    flags, [update_landmarks] returns and does this and no more: every
    slot that holds a landmark not being erased when the call starts has
    its landmark told, in slot order and with the slot's index, to add the
    observation, then to update its viewing statistics, then to compute
    its descriptor: three steps per valid slot. The keyframe itself is
    unchanged, and with no valid slot the whole world is. *)
Theorem update_landmarks_refreshes_valid_slots w :
  refresh_keeps_flags (id_ (self w)) →
  update_landmarks w
  = (Returned tt,
     mkWorld (self w)
       (refresh_all (id_ (self w)) (ext w) 0 (landmarks_ (self w)) (ext w))
       (trace w ++ refresh_steps (ext w) 0 (landmarks_ (self w))))
  ∧ length (trace (update_landmarks w).2)
    = (length (trace w)
       + 3 * length (filter (λ lm, valid_slot (ext w) lm = true)
                       (landmarks_ (self w))))%nat
  ∧ (Forall (λ lm, valid_slot (ext w) lm = false) (landmarks_ (self w)) →
     update_landmarks w = (Returned tt, w)).
Proof.
  intros Hstable.
  assert (Hrun := refresh_loop_stable (id_ (self w)) (ext w)
                    (length (landmarks_ (self w))) 0 w Hstable eq_refl (λ _, eq_refl)).
  rewrite drop_0 in Hrun. rewrite update_landmarks_loop, Hrun.
  split_and!; [done | |].
  - cbn. by rewrite length_app, refresh_steps_length.
  - intros Hnone. rewrite refresh_steps_invalid, refresh_all_invalid by done.
    rewrite app_nil_r. by destruct w.
Qed.

End UpdateLandmarks.

Lemma sim_refresh_keeps_flags (this : keyframe_ref) :
  refresh_keeps_flags (F := Z) (E := Sim.state) this.
Proof.
  intros l idx e l'. unfold refreshed. cbn.
  unfold Sim.will_be_erased, Sim.add_observation, Sim.with_landmark_table. cbn.
  induction (Sim.landmarks e) as [|[l0 lm0] table IH]; [done|].
  cbn. destruct (Z.eqb l0 l) eqn:Hl; cbn.
  - by destruct (Z.eqb l0 l').
  - destruct (Z.eqb l0 l'); [done | exact IH].
Qed.

Lemma update_landmarks_refreshes_valid_slots_witness :
  refresh_keeps_flags (F := Z) (E := Sim.state) (id_ (self Sim.demo_world))
  ∧ trace (update_landmarks Sim.demo_world).2
    = [landmark_add_observation 10 0;
       landmark_update_mean_normal_and_obs_scale_variance 10;
       landmark_compute_descriptor 10;
       landmark_add_observation 11 2;
       landmark_update_mean_normal_and_obs_scale_variance 11;
       landmark_compute_descriptor 11]
  ∧ update_landmarks Cases.bare_world = (Returned tt, Cases.bare_world).
Proof.
  split; [apply sim_refresh_keeps_flags|]. split.
  - destruct (update_landmarks_refreshes_valid_slots Sim.demo_world
                (sim_refresh_keeps_flags _)) as (Hrun & _ & _).
    rewrite Hrun. reflexivity.
  - destruct (update_landmarks_refreshes_valid_slots Cases.bare_world
                (sim_refresh_keeps_flags _)) as (_ & _ & Hnone).
    apply Hnone. repeat constructor.
Defined.

(** ** Further properties: erasure and pinning *)

Section ErasureMore.
Context {F Obs E : Type} `{Scalar F} `{Collaborators F E}.

Implicit Types (k : keyframe F Obs) (w : world F Obs E).

Lemma addresses_only_cons (lm : option landmark_ref) slots (t : list step) :
  Forall (addresses_only slots) t → Forall (addresses_only (lm :: slots)) t.
Proof.
  intros Ht. eapply Forall_impl; [exact Ht|].
  intros s Hs l Hl. right. by apply Hs.
Qed.

Lemma addresses_only_here (l : landmark_ref) slots (s : step) :
  step_landmark s = Some l → addresses_only (Some l :: slots) s.
Proof. intros Hs l' Hl'. assert (l' = l) as -> by congruence. left. Qed.

Lemma landmarks_detached_within (this : keyframe_ref) slots (e e' : E) t :
  landmarks_detached this slots e t e' →
  Forall (addresses_only slots) t
  ∧ Forall erasure_step t
  ∧ (length t ≤ 3 * length slots)%nat.
Proof.
  induction 1 as [ e | slots e t e' _ (IHa & IHe & IHl)
                 | l slots e t e' Hb _ (IHa & IHe & IHl)
                 | l slots e t e' Hb Ha _ (IHa & IHe & IHl)
                 | l slots e t e' Hb Ha _ (IHa & IHe & IHl) ].
  - split_and!; [constructor | constructor | done].
  - split_and!; [by apply addresses_only_cons | done | cbn; lia].
  - split_and!; [by apply addresses_only_cons | done | cbn; lia].
  - split_and!.
    + repeat (constructor; [by apply addresses_only_here|]).
      by apply addresses_only_cons.
    + by repeat (constructor; [done|]).
    + cbn. lia.
  - split_and!.
    + constructor; [by apply addresses_only_here | by apply addresses_only_cons].
    + by constructor.
    + cbn. lia.
Qed.

Lemma refresh_loop_within (this : keyframe_ref) (n i : nat) w :
  (i + n)%nat = length (landmarks_ (self w)) →
  ∃ e' t,
    for_each (seq i n) (refresh_slot this) w
    = (Returned tt, mkWorld (self w) e' (trace w ++ t))
    ∧ Forall (addresses_only (landmarks_ (self w))) t
    ∧ Forall refresh_step t.
Proof.
  revert i w. induction n as [|n IH]; intros i w Hlen.
  - exists (ext w), []. rewrite app_nil_r. split_and!; [by destruct w | done | done].
  - destruct (lookup_lt_is_Some_2 (landmarks_ (self w)) i ltac:(lia)) as [lm Hlm].
    cbn [seq for_each]. unfold mbind at 1, M_bind at 1.
    rewrite (refresh_slot_step this i lm w Hlm).
    destruct lm as [l|]; [destruct (lm_will_be_erased (ext w) l)|].
    + apply IH. lia.
    + match goal with |- context [for_each _ _ ?w1] =>
        destruct (IH (S i) w1 ltac:(cbn; lia)) as (e' & t & -> & Hin & Hkind) end.
      cbn [self ext trace] in *. eexists e', (_ :: _ :: _ :: t).
      rewrite <- app_assoc. split_and!; [done | |].
      * assert (Hl : Some l ∈ landmarks_ (self w)) by by eapply list_elem_of_lookup_2.
        repeat (constructor; [by intros l' [= <-]|]). done.
      * by repeat (constructor; [done|]).
    + apply IH. lia.
Qed.

(** X8. [prepare_for_erasing] never throws, and what it does to the
    keyframe itself is at most to set [will_be_erased_]: behind a guard
    (origin or pinned) the world is left as it is; otherwise the flag is
    set, so that afterwards [will_be_erased()] tells whether the keyframe
    is gone. The landmark slots (which are not cleared), the pose, the pin
    and the id are never touched, and steps are only added to the trace. *)
Theorem prepare_for_erasing_best_effort w :
  ∃ w',
    prepare_for_erasing w = (Returned tt, w')
    ∧ (if guarded w then w' = w else self w' = with_will_be_erased true (self w))
    ∧ will_be_erased (self w') = will_be_erased (self w) || negb (guarded w)
    ∧ get_landmarks (self w') = get_landmarks (self w)
    ∧ get_pose_cw (self w') = get_pose_cw (self w)
    ∧ get_pose_wc (self w') = get_pose_wc (self w)
    ∧ cannot_be_erased_ (self w') = cannot_be_erased_ (self w)
    ∧ id_ (self w') = id_ (self w)
    ∧ ∃ t, trace w' = trace w ++ t.
Proof.
  pose proof (prepare_for_erasing_self w) as Hself. unfold guarded in *.
  destruct (keyframe_eqb _ _) eqn:Horigin; cbn [orb] in *.
  - exists w. rewrite prepare_for_erasing_guarded by by left.
    split_and!; try done; [by rewrite orb_false_r | exists []; by rewrite app_nil_r].
  - destruct (cannot_be_erased_ (self w)) eqn:Hpinned.
    + exists w. rewrite prepare_for_erasing_guarded by by right.
      split_and!; try done; [by rewrite orb_false_r | exists []; by rewrite app_nil_r].
    + destruct (prepare_for_erasing_unguarded w Horigin Hpinned)
        as (w' & Hrun & t & e2 & _ & Hkf & _ & Htrace).
      exists w'. rewrite Hrun, Hkf. cbn.
      split_and!; try done; [by rewrite orb_true_r | by eexists].
Qed.

(** X9. The erasure flag is written by [prepare_for_erasing] alone and is
    never cleared, and the id is never written: [set_pose_cw],
    [add_landmark], [erase_landmark_with_index], [set_not_to_be_erased],
    [erase_landmark], [update_landmarks] and [set_to_be_erased] leave both
    as they are, and after [prepare_for_erasing] a flag that was set is
    still set. *)
Theorem will_be_erased_is_terminal :
  (∀ T k, will_be_erased (set_pose_cw T k) = will_be_erased k
          ∧ id_ (set_pose_cw T k) = id_ k)
  ∧ (∀ k lm idx k', add_landmark lm idx k = Returned k' →
       will_be_erased k' = will_be_erased k ∧ id_ k' = id_ k)
  ∧ (∀ k idx k', erase_landmark_with_index idx k = Returned k' →
       will_be_erased k' = will_be_erased k ∧ id_ k' = id_ k)
  ∧ (∀ k, will_be_erased (set_not_to_be_erased k) = will_be_erased k
          ∧ id_ (set_not_to_be_erased k) = id_ k)
  ∧ (∀ w lm, will_be_erased (self (erase_landmark lm w).2) = will_be_erased (self w)
             ∧ id_ (self (erase_landmark lm w).2) = id_ (self w))
  ∧ (∀ w, will_be_erased (self (update_landmarks w).2) = will_be_erased (self w)
          ∧ id_ (self (update_landmarks w).2) = id_ (self w))
  ∧ (∀ w, will_be_erased (self (set_to_be_erased w).2) = will_be_erased (self w)
          ∧ id_ (self (set_to_be_erased w).2) = id_ (self w))
  ∧ (∀ w, id_ (self (prepare_for_erasing w).2) = id_ (self w)
          ∧ (will_be_erased (self w) = true →
             ∀ n, will_be_erased (self (repeated n prepare_for_erasing w)) = true)).
Proof.
  split_and!.
  - done.
  - intros k lm idx k'. unfold add_landmark.
    destruct (at_put _ _ _); [|done]. by intros [= <-].
  - intros k idx k'. unfold erase_landmark_with_index.
    destruct (at_put _ _ _); [|done]. by intros [= <-].
  - done.
  - intros w lm. rewrite erase_landmark_cases. by repeat case_decide.
  - intros w. by rewrite update_landmarks_self.
  - intros w. rewrite set_to_be_erased_step. by destruct (gn_has_loop_edge _ _).
  - intros w. split.
    + rewrite prepare_for_erasing_self. by destruct (guarded w).
    + intros Hset. induction n as [|n IH]; [done|].
      change (repeated (S n) prepare_for_erasing w)
        with (prepare_for_erasing (repeated n prepare_for_erasing w)).2.
      rewrite prepare_for_erasing_self.
      by destruct (guarded (repeated n prepare_for_erasing w)).
Qed.

(** X10. Pinning protects from erasure. After [set_not_to_be_erased],
    [prepare_for_erasing] changes nothing. If the graph node holds a loop
    edge, a [set_to_be_erased] in between does not help: the keyframe
    stays pinned and [prepare_for_erasing] still changes nothing. If it
    holds none, [set_to_be_erased] lifts the pin and [prepare_for_erasing]
    then erases the keyframe, unless it is the origin. *)
Theorem pin_protects_from_erasure w :
  prepare_for_erasing (pinned w) = (Returned tt, pinned w)
  ∧ (if gn_has_loop_edge (ext w) (id_ (self w)) then
       (set_to_be_erased (pinned w)).2 = pinned w
       ∧ prepare_for_erasing (set_to_be_erased (pinned w)).2 = (Returned tt, pinned w)
     else
       cannot_be_erased_ (self (set_to_be_erased (pinned w)).2) = false
       ∧ will_be_erased
           (self (prepare_for_erasing (set_to_be_erased (pinned w)).2).2)
         = will_be_erased (self w)
           || negb (keyframe_eqb (id_ (self w)) (map_origin_keyfrm_ (ext w)))).
Proof.
  assert (Hpinned : prepare_for_erasing (pinned w) = (Returned tt, pinned w)).
  { apply prepare_for_erasing_guarded. by right. }
  split; [done|].
  rewrite set_to_be_erased_step. cbn [pinned self ext].
  change (id_ (set_not_to_be_erased (self w))) with (id_ (self w)).
  destruct (gn_has_loop_edge (ext w) (id_ (self w))); cbn [snd].
  - done.
  - split; [done|]. rewrite prepare_for_erasing_self. unfold guarded. cbn.
    destruct (keyframe_eqb _ _); cbn; [by rewrite orb_false_r | by rewrite orb_true_r].
Qed.

(** X11. The calls on landmarks stay within the keyframe's own slots.
    [prepare_for_erasing] addresses only landmarks held by a slot, never
    asks one to add an observation, and issues at most three steps per
    slot besides the flag and the five calls on graph node, map and BoW
    database. [update_landmarks] returns, leaves the keyframe unchanged,
    addresses only landmarks held by a slot, and asks them for nothing but
    to add the observation and to recompute statistics and descriptor. *)
Theorem landmark_calls_stay_within_slots w :
  (∃ t,
     trace (prepare_for_erasing w).2 = trace w ++ t
     ∧ Forall (addresses_only (landmarks_ (self w))) t
     ∧ Forall erasure_step t
     ∧ (length t ≤ 3 * length (landmarks_ (self w)) + 6)%nat)
  ∧ (∃ e' t,
       update_landmarks w = (Returned tt, mkWorld (self w) e' (trace w ++ t))
       ∧ Forall (addresses_only (landmarks_ (self w))) t
       ∧ Forall refresh_step t).
Proof.
  split.
  - destruct (guarded w) eqn:Hguard; unfold guarded in Hguard.
    + exists []. rewrite prepare_for_erasing_guarded, app_nil_r.
      * split_and!; [done | done | done | cbn; lia].
      * apply orb_true_iff in Hguard. tauto.
    + apply orb_false_iff in Hguard as [Horigin Hpinned].
      destruct (prepare_for_erasing_unguarded w Horigin Hpinned)
        as (w' & -> & t & e2 & Hdetached & _ & _ & Htrace).
      destruct (landmarks_detached_within _ _ _ _ _ Hdetached) as (Hin & Hkind & Hlen).
      eexists. split; [exact Htrace|]. split_and!.
      * constructor; [done|]. apply Forall_app. split; [done|].
        by repeat (constructor; [done|]).
      * constructor; [done|]. apply Forall_app. split; [done|].
        by repeat (constructor; [done|]).
      * cbn. rewrite length_app. cbn. lia.
  - rewrite update_landmarks_loop.
    exact (refresh_loop_within (id_ (self w)) (length (landmarks_ (self w))) 0 w eq_refl).
Qed.

End ErasureMore.

(** ** Further properties: slots, serialisation, construction, markers *)

Section SlotAlgebra.
Context {F Obs E : Type}.

Implicit Types (k : keyframe F Obs) (w : world F Obs E).

Lemma add_landmark_cases (lm : option landmark_ref) (idx : nat) k :
  add_landmark lm idx k
  = if decide (idx < length (landmarks_ k))%nat
    then Returned (with_landmarks (<[idx := lm]> (landmarks_ k)) k)
    else Thrown out_of_range.
Proof. unfold add_landmark, at_put. by case_decide. Qed.

Lemma erase_landmark_with_index_as_add (idx : nat) k :
  erase_landmark_with_index idx k = add_landmark None idx k.
Proof. done. Qed.

Lemma call_add_landmark (lm : option landmark_ref) (idx : nat) w :
  call (add_landmark lm idx) w
  = if decide (idx < length (landmarks_ (self w)))%nat
    then (Returned tt,
          mkWorld (with_landmarks (<[idx := lm]> (landmarks_ (self w))) (self w))
            (ext w) (trace w))
    else (Thrown out_of_range, w).
Proof.
  unfold call, mbind, M_bind, get_self, lift, set_self. cbn.
  rewrite add_landmark_cases. by case_decide.
Qed.

Lemma query_get_landmark (idx : nat) w :
  query (get_landmark idx) w
  = (match landmarks_ (self w) !! idx with
     | Some held => Returned held
     | None => Thrown out_of_range
     end, w).
Proof. done. Qed.

Lemma bind_returned {A B : Type} (m : M F Obs E A) (f : A → M F Obs E B) w a w' :
  m w = (Returned a, w') → (m ≫= f) w = f a w'.
Proof. unfold mbind, M_bind. by intros ->. Qed.

Lemma bind_thrown {A B : Type} (m : M F Obs E A) (f : A → M F Obs E B) w e w' :
  m w = (Thrown e, w') → (m ≫= f) w = (Thrown e, w').
Proof. unfold mbind, M_bind. by intros ->. Qed.

(** X12. Writes to the landmark slots compose as assignments to an array
    of fixed size held in the keyframe. Writes to two different slots of
    the keyframe commute. When one of two writes is out of range, both
    orders throw [std::out_of_range], and the order shows in the keyframe:
    a write made before the throwing call stays, a write after it is not
    made. A write is superseded by a later write or erasure of the same
    slot; erasing twice is erasing once; writing back what [get_landmark]
    returned changes nothing; a read after a write of the same slot returns
    what was written; and a write does not change what any other slot
    reads. *)
Theorem slot_writes_compose w (i j : nat) (a b : option landmark_ref) :
  let n := length (landmarks_ (self w)) in
  (i ≠ j → (i < n)%nat → (j < n)%nat →
   (call (add_landmark a i);; call (add_landmark b j)) w
   = (call (add_landmark b j);; call (add_landmark a i)) w)
  ∧ ((i < n)%nat → (n ≤ j)%nat →
     (call (add_landmark a i);; call (add_landmark b j)) w
     = (Thrown out_of_range,
        mkWorld (with_landmarks (<[i := a]> (landmarks_ (self w))) (self w))
          (ext w) (trace w))
     ∧ (call (add_landmark b j);; call (add_landmark a i)) w
       = (Thrown out_of_range, w))
  ∧ (call (add_landmark a i);; call (add_landmark b i)) w
    = call (add_landmark b i) w
  ∧ (call (add_landmark a i);; call (erase_landmark_with_index i)) w
    = call (erase_landmark_with_index i) w
  ∧ (call (erase_landmark_with_index i);; call (erase_landmark_with_index i)) w
    = call (erase_landmark_with_index i) w
  ∧ (held ← query (get_landmark i); call (add_landmark held i)) w
    = (query (get_landmark i);; mret tt) w
  ∧ (call (add_landmark a i);; query (get_landmark i)) w
    = (call (add_landmark a i);; mret a) w
  ∧ (i ≠ j → (i < n)%nat →
     ((call (add_landmark a i);; query (get_landmark j)) w).1
     = (query (get_landmark j) w).1).
Proof.
  intros n.
  assert (Hsame : ∀ x y : option landmark_ref,
            (call (add_landmark x i);; call (add_landmark y i)) w
            = call (add_landmark y i) w).
  { intros x y. destruct (decide (i < n)%nat) as [Hi|Hi].
    - erewrite bind_returned by (by rewrite call_add_landmark, decide_True).
      rewrite !call_add_landmark. cbn. rewrite length_insert.
      rewrite !decide_True by done. by rewrite list_insert_insert_eq.
    - erewrite bind_thrown by (by rewrite call_add_landmark, decide_False).
      by rewrite call_add_landmark, decide_False. }
  split_and!.
  - intros Hij Hi Hj.
    erewrite !bind_returned by (by rewrite call_add_landmark, decide_True).
    rewrite !call_add_landmark. cbn. rewrite !length_insert.
    rewrite !decide_True by done. by rewrite list_insert_insert_ne.
  - intros Hi Hj. split.
    + erewrite bind_returned by (by rewrite call_add_landmark, decide_True).
      rewrite call_add_landmark. cbn. rewrite length_insert.
      by rewrite decide_False by (fold n; lia).
    + erewrite bind_thrown; [done|].
      by rewrite call_add_landmark, decide_False by (fold n; lia).
  - apply Hsame.
  - apply (Hsame a None).
  - apply (Hsame None None).
  - unfold mbind, M_bind. rewrite query_get_landmark.
    destruct (landmarks_ (self w) !! i) as [held|] eqn:Hheld; [|done].
    rewrite call_add_landmark.
    rewrite decide_True by by eapply lookup_lt_Some.
    rewrite list_insert_id by done. by destruct w as [[] ? ?].
  - destruct (decide (i < n)%nat) as [Hi|Hi].
    + erewrite !bind_returned by (by rewrite call_add_landmark, decide_True).
      rewrite query_get_landmark. cbn. by rewrite list_lookup_insert_eq.
    + by erewrite !bind_thrown by (by rewrite call_add_landmark, decide_False).
  - intros Hij Hi.
    erewrite bind_returned by (by rewrite call_add_landmark, decide_True).
    rewrite !query_get_landmark. cbn. by rewrite list_lookup_insert_ne.
Qed.

End SlotAlgebra.

Section EraseLandmark.
Context {F Obs E : Type} `{Scalar F} `{Collaborators F E}.

Implicit Types (k : keyframe F Obs) (w : world F Obs E).

(** X13. [erase_landmark] throws [std::out_of_range] exactly when the
    landmark reports an index at or beyond the number of slots, and then
    nothing has changed. It never changes the collaborators or the trace,
    and a second call right after the first does the same and changes
    nothing more. *)
Theorem erase_landmark_out_of_range (lm : landmark_ref) w :
  let idx := lm_get_index_in_keyframe (ext w) lm (id_ (self w)) in
  - 2 ^ 31 ≤ idx < 2 ^ 31 →
  (erase_landmark lm w = (Thrown out_of_range, w)
   ↔ Z.of_nat (length (landmarks_ (self w))) ≤ idx)
  ∧ ext (erase_landmark lm w).2 = ext w
  ∧ trace (erase_landmark lm w).2 = trace w
  ∧ erase_landmark lm (erase_landmark lm w).2
    = ((erase_landmark lm w).1, (erase_landmark lm w).2).
Proof.
  intros idx Hint.
  assert (Hagain : ∀ w0 : world F Obs E,
            ext w0 = ext w → id_ (self w0) = id_ (self w) →
            erase_landmark lm w0
            = if decide (0 ≤ idx) then
                if decide (Z.to_nat idx < length (landmarks_ (self w0)))%nat then
                  (Returned tt,
                   mkWorld (with_landmarks (<[Z.to_nat idx := None]> (landmarks_ (self w0)))
                              (self w0)) (ext w0) (trace w0))
                else (Thrown out_of_range, w0)
              else (Returned tt, w0)).
  { intros w0 Hext Hid. rewrite erase_landmark_cases. cbn zeta.
    rewrite Hext, Hid. fold idx. case_decide; [|done].
    by rewrite as_unsigned_small by lia. }
  rewrite (Hagain w eq_refl eq_refl).
  destruct (decide (0 ≤ idx)) as [Hpos | Hneg].
  - destruct (decide (Z.to_nat idx < length (landmarks_ (self w)))%nat) as [Hin | Hout].
    + split_and!; try done.
      * split; [done | lia].
      * rewrite Hagain by done. cbn.
        rewrite decide_True by (by rewrite length_insert).
        by rewrite list_insert_insert_eq.
    + split_and!; try done.
      * split; [lia | done].
      * rewrite Hagain by done. cbn.
        by rewrite decide_False by done.
  - split_and!; try done.
    + split; [done | lia].
    + by rewrite Hagain by done.
Qed.

End EraseLandmark.

Lemma erase_landmark_out_of_range_witness :
  lm_get_index_in_keyframe (ext Cases.misrecorded_world) 10
    (id_ (self Cases.misrecorded_world)) = 9
  ∧ length (landmarks_ (self Cases.misrecorded_world)) = 4%nat
  ∧ erase_landmark 10 Cases.misrecorded_world
    = (Thrown out_of_range, Cases.misrecorded_world).
Proof.
  split; [reflexivity|]. split; [reflexivity|].
  destruct (erase_landmark_out_of_range 10 Cases.misrecorded_world) as ([_ Hthrow] & _).
  - cbn; lia.
  - apply Hthrow. cbn; lia.
Defined.

Section JsonMore.
Context {F Obs E J : Type} `{Scalar F} `{Collaborators F E}
  `{JsonConverters F Obs J}.

Implicit Types (k : keyframe F Obs) (w : world F Obs E).

Lemma map_as_int_small (ids : list Z) :
  Forall (λ z, 0 ≤ z < 2 ^ 31) ids → map as_int ids = ids.
Proof.
  induction 1 as [|z ids Hz _ IH]; [done|]. cbn.
  rewrite IH, as_int_small by lia. done.
Qed.

Lemma lookup_map {A B : Type} (f : A → B) (l : list A) (i : nat) :
  map f l !! i = f <$> l !! i.
Proof.
  revert i. induction l as [|x l IH]; intros [|i]; cbn; try done.
Qed.

(** X14. [to_json] never throws and changes nothing. With landmark and
    keyframe ids below 2^31 the record is faithful in everything but the
    parent of the root: it has one landmark id per slot, -1 exactly for the
    slots that are empty or whose landmark is being erased and the
    landmark's id for the others; it lists the ids of the spanning children
    and of the loop edges as the graph node reports them; the parent id is
    the parent's when there is one; [rot_cw] and [trans_cw] are what
    [convert_rotation_to_json] and [convert_translation_to_json] return for
    the rotation block and the translation column of [pose_cw_]. *)
Theorem to_json_faithful_for_small_ids w :
  Forall (λ lm, ∀ l, lm = Some l → 0 ≤ l < 2 ^ 31) (landmarks_ (self w)) →
  Forall (λ c, 0 ≤ c < 2 ^ 31) (gn_get_spanning_children (ext w) (id_ (self w))) →
  Forall (λ c, 0 ≤ c < 2 ^ 31) (gn_get_loop_edges (ext w) (id_ (self w))) →
  ∃ j,
    to_json w = (Returned j, w)
    ∧ length (j_lm_ids j) = length (landmarks_ (self w))
    ∧ (∀ i lm, landmarks_ (self w) !! i = Some lm →
         (j_lm_ids j !! i = Some (-1) ↔ valid_slot (ext w) lm = false)
         ∧ (∀ l, lm = Some l → valid_slot (ext w) lm = true →
              j_lm_ids j !! i = Some l))
    ∧ j_span_children j = gn_get_spanning_children (ext w) (id_ (self w))
    ∧ j_loop_edges j = gn_get_loop_edges (ext w) (id_ (self w))
    ∧ (∀ p, gn_get_spanning_parent (ext w) (id_ (self w)) = Some p →
         0 ≤ p < 2 ^ 31 → j_span_parent j = p)
    ∧ j_rot_cw j = convert_rotation_to_json (get_rot_cw (self w))
    ∧ j_trans_cw j = convert_translation_to_json (get_trans_cw (self w))
    ∧ j_n_keypts j = num_keypts_ (frm_obs_ (self w)).
Proof.
  intros Hlm Hchildren Hloops.
  destruct (to_json_fields w) as (j & Hrun & Hids & Hparent & Hc & Hl & Hn).
  exists j. split_and!; try done.
  - by rewrite Hids, length_map.
  - intros i lm Hi. rewrite Hids, !lookup_map, Hi. cbn.
    rewrite Forall_forall in Hlm.
    assert (Hsmall : ∀ l, lm = Some l → 0 ≤ l < 2 ^ 31).
    { apply Hlm. by eapply list_elem_of_lookup_2. }
    destruct (serialised_landmark_id_small (ext w) lm Hsmall) as [Hminus Hid].
    split.
    + assert (Hinvalid : valid_slot (ext w) lm = false
                        ↔ lm = None ∨ ∃ l, lm = Some l ∧ lm_will_be_erased (ext w) l = true).
      { destruct lm as [l|]; cbn.
        - rewrite negb_false_iff. split; [by right; exists l|].
          by intros [[=] | (l' & [= <-] & ?)].
        - split; [by left | done]. }
      rewrite Hinvalid, <- Hminus. split; [by intros [= ->] | by intros ->].
    + intros l -> Hvalid. cbn in Hvalid. rewrite negb_true_iff in Hvalid.
      f_equal. by apply Hid.
  - by rewrite Hc, map_as_int_small.
  - by rewrite Hl, map_as_int_small.
  - intros p Hp Hsmall. rewrite Hparent, Hp. apply as_unsigned_small. lia.
  - destruct (to_json w) as [[j'|] w'] eqn:Hj; [|done].
    injection Hrun as -> ->. revert Hj. unfold to_json. run_method.
    destruct (fold_each _ _ _ _) as [[ids|] w1]; [|done]. by intros [= <- _].
  - destruct (to_json w) as [[j'|] w'] eqn:Hj; [|done].
    injection Hrun as -> ->. revert Hj. unfold to_json. run_method.
    destruct (fold_each _ _ _ _) as [[ids|] w1]; [|done]. by intros [= <- _].
Qed.

(** A loop of [update_landmarks] over empty slots does nothing. *)
Lemma refresh_loop_empty (this : keyframe_ref) (n i : nat) w :
  Forall (λ lm, lm = None) (landmarks_ (self w)) →
  (i + n)%nat = length (landmarks_ (self w)) →
  for_each (seq i n) (refresh_slot this) w = (Returned tt, w).
Proof.
  intros Hnone. revert i. induction n as [|n IH]; intros i Hlen; [done|].
  destruct (lookup_lt_is_Some_2 (landmarks_ (self w)) i ltac:(lia)) as [lm Hlm].
  assert (lm = None) as ->.
  { rewrite Forall_forall in Hnone. apply Hnone. by eapply list_elem_of_lookup_2. }
  cbn [seq for_each]. unfold mbind at 1, M_bind at 1.
  rewrite (refresh_slot_step this i None w Hlm). apply IH. lia.
Qed.

Lemma tracked_count_empty (thr : nat) (e : E) slots :
  Forall (λ lm, lm = None) slots → tracked_count thr e slots = 0%nat.
Proof.
  unfold tracked_count. induction 1 as [|lm slots -> _ IH]; [done|].
  by rewrite filter_cons, decide_False.
Qed.

(** X15. A keyframe built from persisted fields is blank: every slot below
    the keypoint count reads empty, [get_valid_landmarks] is empty,
    [get_num_tracked_landmarks] is 0 for every threshold,
    [compute_median_depth] throws [std::out_of_range], [update_landmarks]
    does nothing, [to_json] lists -1 for every slot, and the keyframe is
    neither pinned nor erased, with the pose given. *)
Theorem keyframe_of_fields_is_blank (id : Z) (timestamp : F) (pose_cw : Mat44 F)
    (camera : camera_base) (orb : orb_params) (frm_obs : frame_observation Obs)
    (e : E) (steps : list step) :
  let k := keyframe_of_fields id timestamp pose_cw camera orb frm_obs in
  let w := mkWorld k e steps in
  get_landmarks k = replicate (num_keypts_ frm_obs) None
  ∧ (∀ idx, get_landmark idx k
            = if decide (idx < num_keypts_ frm_obs)%nat then Returned None
              else Thrown out_of_range)
  ∧ get_valid_landmarks w = (Returned [], w)
  ∧ (∀ thr, get_num_tracked_landmarks thr w = (Returned 0%nat, w))
  ∧ (∀ abs, compute_median_depth abs w = (Thrown out_of_range, w))
  ∧ update_landmarks w = (Returned tt, w)
  ∧ (∃ j, to_json w = (Returned j, w)
          ∧ j_lm_ids j = replicate (num_keypts_ frm_obs) (-1)
          ∧ j_n_keypts j = num_keypts_ frm_obs)
  ∧ cannot_be_erased_ k = false
  ∧ will_be_erased k = false
  ∧ get_pose_cw k = pose_cw
  ∧ id_ k = id.
Proof.
  intros k w.
  assert (Hslots : landmarks_ (self w) = replicate (num_keypts_ frm_obs) None) by done.
  assert (Hnone : Forall (λ lm : option landmark_ref, lm = None) (landmarks_ (self w))).
  { rewrite Hslots. by apply Forall_replicate. }
  split_and!; try done.
  - intros idx. unfold get_landmark, at_.
    change (landmarks_ k) with (replicate (num_keypts_ frm_obs) (@None landmark_ref)).
    case_decide.
    + by rewrite lookup_replicate_2.
    + rewrite (proj1 (lookup_replicate_None _ _ _)); [done | lia].
  - destruct (collect_valid_loop (landmarks_ (self w)) [] w) as (vs & Hrun & _ & Hin).
    assert (vs = []) as ->.
    { destruct vs as [|l vs]; [done|]. exfalso.
      destruct (proj1 (Hin l) ltac:(left)) as [Hl | [Hl _]].
      - by apply elem_of_nil in Hl.
      - rewrite Forall_forall in Hnone. by specialize (Hnone _ Hl). }
    unfold get_valid_landmarks. run_method. exact Hrun.
  - intros thr. rewrite get_num_tracked_landmarks_count.
    by rewrite tracked_count_empty.
  - intros abs. rewrite compute_median_depth_unfold.
    by rewrite (proj2 (slot_depths_nil abs w) Hnone).
  - rewrite update_landmarks_loop. by apply refresh_loop_empty.
  - destruct (to_json_fields w) as (j & Hrun & Hids & _ & _ & _ & Hn).
    exists j. split_and!; [done | | done].
    rewrite Hids, Hslots. clear. induction (num_keypts_ frm_obs) as [|n IH]; [done|].
    cbn. by f_equal.
Qed.

End JsonMore.

Lemma to_json_faithful_for_small_ids_witness :
  Forall (λ lm, ∀ l, lm = Some l → 0 ≤ l < 2 ^ 31) (landmarks_ (self Sim.demo_world))
  ∧ ∃ j,
      to_json Sim.demo_world = (Returned j, Sim.demo_world)
      ∧ j_lm_ids j !! 0%nat = Some 10
      ∧ j_lm_ids j !! 1%nat = Some (-1)
      ∧ j_span_children j = [2]
      ∧ j_span_parent j = 0.
Proof.
  assert (Hlm : Forall (λ lm, ∀ l, lm = Some l → 0 ≤ l < 2 ^ 31)
                  (landmarks_ (self Sim.demo_world))).
  { cbn. repeat (constructor; [intros l [=]; subst; lia|]). constructor. }
  split; [exact Hlm|].
  destruct (to_json_faithful_for_small_ids Sim.demo_world Hlm)
    as (j & Hrun & _ & Hslot & Hchildren & _ & Hparent & _).
  - repeat constructor; lia.
  - repeat constructor; lia.
  - exists j. split; [exact Hrun|]. split_and!.
    + apply (proj2 (Hslot 0%nat (Some 10) eq_refl) 10); reflexivity.
    + apply (proj1 (Hslot 1%nat (Some 12) eq_refl)). reflexivity.
    + exact Hchildren.
    + apply (Hparent 0); [reflexivity | lia].
Defined.

Section MarkerTable.
Context {P : Type}.

Implicit Types (mkr : marker P) (table : gmap Z (marker P)).

Lemma get_markers_values table : get_markers table = (map_to_list table).*2.
Proof.
  unfold get_markers.
  assert (Hpush : ∀ (l : list (Z * marker P)) acc,
            foldl (λ markers id_marker, markers ++ [id_marker.2]) acc l = acc ++ l.*2).
  { induction l as [|x l IH]; intros acc; cbn; [by rewrite app_nil_r|].
    by rewrite IH, <- app_assoc. }
  apply Hpush.
Qed.

Lemma add_marker_filed mkr table :
  markers_filed_by_id table → markers_filed_by_id (add_marker mkr table).
Proof.
  intros Hfiled i m. unfold add_marker. rewrite lookup_insert.
  case_decide; [by intros [= <-] | apply Hfiled].
Qed.

Lemma elem_of_get_markers table m :
  m ∈ get_markers table ↔ ∃ i, table !! i = Some m.
Proof.
  rewrite get_markers_values, list_elem_of_fmap. split.
  - intros ([i m'] & -> & Hin). exists i. by apply elem_of_map_to_list.
  - intros [i Hi]. exists (i, m). split; [done|]. by apply elem_of_map_to_list.
Qed.

(** X16. [add_marker] files a marker under its id, replacing a marker
    with the same id and keeping all others, and [get_markers] lists what
    is filed, in some order: after [add_marker(mkr)] the list holds [mkr]
    and the markers listed before whose id differs, each once; its length
    has grown by one if the id was new and is unchanged otherwise; and no
    two listed markers share an id. *)
Theorem add_marker_then_get_markers mkr table :
  markers_filed_by_id table →
  markers_filed_by_id (add_marker mkr table)
  ∧ get_markers (add_marker mkr table)
    ≡ₚ mkr :: filter (λ m, mkr_id_ m ≠ mkr_id_ mkr) (get_markers table)
  ∧ (∀ m, m ∈ get_markers (add_marker mkr table)
          ↔ m = mkr ∨ (m ∈ get_markers table ∧ mkr_id_ m ≠ mkr_id_ mkr))
  ∧ NoDup (mkr_id_ <$> get_markers (add_marker mkr table))
  ∧ length (get_markers (add_marker mkr table))
    = (match table !! mkr_id_ mkr with
       | Some _ => length (get_markers table)
       | None => S (length (get_markers table))
       end).
Proof.
  intros Hfiled.
  assert (Hfiled' := add_marker_filed mkr table Hfiled).
  assert (Hids : ∀ t : gmap Z (marker P), markers_filed_by_id t →
            mkr_id_ <$> get_markers t = (map_to_list t).*1).
  { intros t Ht. rewrite get_markers_values, <- list_fmap_compose.
    apply list_fmap_ext. intros i [i' m] Hi. cbn.
    apply Ht. apply elem_of_map_to_list. by eapply list_elem_of_lookup_2. }
  assert (Hnodup : ∀ t : gmap Z (marker P), markers_filed_by_id t →
            NoDup (get_markers t)).
  { intros t Ht. eapply NoDup_fmap_1. rewrite Hids by done.
    apply NoDup_fst_map_to_list. }
  assert (Hmem : ∀ m, m ∈ get_markers (add_marker mkr table)
            ↔ m = mkr ∨ (m ∈ get_markers table ∧ mkr_id_ m ≠ mkr_id_ mkr)).
  { intros m. rewrite !elem_of_get_markers. unfold add_marker. split.
    - intros [i Hi]. rewrite lookup_insert in Hi. case_decide.
      + left. congruence.
      + right. split; [by exists i|]. rewrite (Hfiled _ _ Hi). congruence.
    - intros [-> | [[i Hi] Hne]].
      + exists (mkr_id_ mkr). by rewrite lookup_insert_eq.
      + exists i. rewrite lookup_insert_ne; [done|].
        rewrite <- (Hfiled _ _ Hi). congruence. }
  split_and!; [done | | done | |].
  - apply NoDup_Permutation.
    + by apply Hnodup.
    + constructor.
      * rewrite list_elem_of_filter. intros [Hne _]. done.
      * apply NoDup_filter. by apply Hnodup.
    + intros m. rewrite Hmem, elem_of_cons, list_elem_of_filter. tauto.
  - rewrite Hids by done. apply NoDup_fst_map_to_list.
  - rewrite !get_markers_values, !length_fmap, !length_map_to_list.
    unfold add_marker. rewrite map_size_insert.
    by destruct (table !! mkr_id_ mkr).
Qed.

End MarkerTable.

Lemma add_marker_then_get_markers_witness :
  markers_filed_by_id (add_marker Cases.marker_b (add_marker Cases.marker_a ∅))
  ∧ get_markers
      (add_marker Cases.marker_a' (add_marker Cases.marker_b (add_marker Cases.marker_a ∅)))
    ≡ₚ [Cases.marker_a'; Cases.marker_b].
Proof.
  assert (Hfiled : markers_filed_by_id
                     (add_marker Cases.marker_b (add_marker Cases.marker_a ∅))).
  { do 2 apply add_marker_filed. intros i m. by rewrite lookup_empty. }
  split; [exact Hfiled|].
  destruct (add_marker_then_get_markers Cases.marker_a' _ Hfiled) as (_ & Hperm & _).
  rewrite Hperm. reflexivity.
Defined.

(** ** Further concrete runs *)

Lemma compute_median_depth_throws_iff_no_landmark_witness :
  Z.of_nat (length (landmarks_ (self Cases.bare_world))) < 2 ^ 64
  ∧ Forall (λ lm, lm = None) (landmarks_ (self Cases.bare_world))
  ∧ compute_median_depth true Cases.bare_world
    = (Thrown out_of_range, Cases.bare_world).
Proof.
  assert (Hnone : Forall (λ lm : option landmark_ref, lm = None)
                    (landmarks_ (self Cases.bare_world))) by (by repeat constructor).
  split; [cbn; lia|]. split; [exact Hnone|].
  destruct (compute_median_depth_throws_iff_no_landmark true Cases.bare_world)
    as (_ & [_ Hthrow] & _).
  - cbn; lia.
  - exact (Hthrow Hnone).
Defined.

Lemma compute_median_depth_splits_witness :
  Z.of_nat (length (landmarks_ (self Sim.four_depths_world))) < 2 ^ 64
  ∧ compute_median_depth false Sim.four_depths_world
    = (Returned 2, Sim.four_depths_world)
  ∧ ∃ below above,
      slot_depths false Sim.four_depths_world ≡ₚ below ++ 2 :: above
      ∧ Forall (λ x, fle x 2) below
      ∧ Forall (fle 2) above
      ∧ length below = 1%nat
      ∧ length above = 2%nat.
Proof.
  split; [cbn; lia|]. split; [reflexivity|].
  destruct (compute_median_depth_splits false Sim.four_depths_world 2)
    as ((below & above & Hperm & Hbelow & Habove & Hlb & Hla) & _).
  - cbn; lia.
  - reflexivity.
  - exists below, above. split_and!; [exact Hperm | exact Hbelow | exact Habove | | ].
    + rewrite Hlb. reflexivity.
    + rewrite Hla. reflexivity.
Defined.

(** Landmark 10 in two slots: once in the set of valid landmarks, twice
    in the count of tracked slots. *)
Example valid_set_and_tracked_count :
  get_valid_landmarks Cases.twice_world = (Returned [10; 11], Cases.twice_world)
  ∧ get_num_tracked_landmarks 0 Cases.twice_world
    = (Returned 3%nat, Cases.twice_world)
  ∧ get_num_tracked_landmarks 2 Cases.twice_world
    = (Returned 2%nat, Cases.twice_world).
Proof. split_and!; reflexivity. Qed.

(** A pinned keyframe with a loop edge survives [set_to_be_erased]
    followed by [prepare_for_erasing]. *)
Example loop_edge_keeps_keyframe :
  will_be_erased
    (self (prepare_for_erasing
             (set_to_be_erased (pinned Cases.looped_world)).2).2) = false
  ∧ will_be_erased
      (self (prepare_for_erasing
               (set_to_be_erased (pinned Sim.demo_world)).2).2) = true.
Proof. split; reflexivity. Qed.
